(** * RFM customer segmentation and cohort retention of the Steam dashboard

    A shallow embedding of the two table transforms of [steam_dashboard.py]:

    - the RFM block of the customer tab (the [rfm_data] group-by, the three
      [pd.qcut] score columns and [get_segment]);
    - the cohort block of the retention tab ([cohort_data], [cohorts] and
      [cohort_retention]);
    - the figures computed from the same columns elsewhere in the script:
      the key figures ([total_revenue], [unique_buyers], [mau_count],
      [avg_mau], [revenue_growth], [arpu_val], [conversion_rate]), the
      segment insight loop, the month-1 retention metric and the customer
      Pareto curve and concentration.

    Conventions of the embedding.

    - A data frame is the list of its rows, in row order.
    - [purchase_date] is a [datetime64[ns]] cell: an integer count of
      nanoseconds since 1970-01-01.  It is an unbounded [Z] here; the
      64-bit range of the cell is not modelled.
    - [net_revenue] is a float cell in the source.  Rounding is not
      modelled: amounts are exact rationals ([Qc]), so sums are exact and
      the quantile interpolation of [pd.qcut] is exact.
    - A monthly period ['YYYY-MM'] is its month ordinal [12 * year + month - 1];
      for the four-digit years a [datetime64[ns]] can hold, the strings
      sort exactly as the ordinals do.
    - The pandas calls are modelled by what they compute: a hash group-by
      is a left fold over the rows into a finite map, emitted in ascending
      key order. *)

From Stdlib Require Import ZArith QArith Qcanon Lqa Lia String.
From stdpp Require Import base option list sorting gmap.

Local Open Scope Z_scope.

(** ** Outcomes *)

(** The exceptions the modelled block can raise. *)
Inductive pandas_error : Type :=
  | BinLabelsMismatch   (* ValueError: Bin labels must be one fewer than the
                           number of bin edges *)
  | NaNToInteger.       (* ValueError: cannot convert float NaN to integer *)

Inductive outcome (A : Type) : Type :=
  | Ok (a : A)
  | Raise (e : pandas_error).
Arguments Ok {A} a.
Arguments Raise {A} e.

Definition bind {A B} (o : outcome A) (k : A -> outcome B) : outcome B :=
  match o with
  | Ok a => k a
  | Raise e => Raise e
  end.

Notation "'let*' x := c 'in' k" := (bind c (fun x => k))
  (at level 10, x name, c at level 100, k at level 200).

Fixpoint traverse {A B} (f : A -> outcome B) (l : list A) : outcome (list B) :=
  match l with
  | [] => Ok []
  | x :: t => let* y := f x in let* ys := traverse f t in Ok (y :: ys)
  end.

(** ** Calendar *)

Module Calendar.

Definition ns_per_day : Z := 86400000000000.

(** Day number (days since 1970-01-01) of a timestamp. *)
Definition day_of (ts : Z) : Z := ts / ns_per_day.

(** [Timedelta.days] of the difference [a - b]. *)
Definition delta_days (a b : Z) : Z := (a - b) / ns_per_day.

Definition days_per_era : Z := 146097.

(** Position inside the 400-year era that starts on a 1st of March:
    twelve times the year of the era plus the month counted from March. *)
Definition month_in_era (doe : Z) : Z :=
  let yoe := (doe - doe / 1460 + doe / 36524 - doe / 146096) / 365 in
  let doy := doe - (365 * yoe + yoe / 4 - yoe / 100) in
  let mp := (5 * doy + 2) / 153 in
  12 * yoe + mp.

(** Month ordinal [12 * year + (month - 1)] of a day number in the
    proleptic Gregorian calendar. *)
Definition month_of_day (d : Z) : Z :=
  let z := d + 719468 in
  let era := z / days_per_era in
  let doe := z mod days_per_era in
  4800 * era + month_in_era doe + 2.

(** [ts.to_period('M')], as a month ordinal. *)
Definition month_of (ts : Z) : Z := month_of_day (day_of ts).

(** Stepwise check of [month_in_era] over the days after [d]; [prev] is
    its value at [d]. *)
Fixpoint steps_ok (fuel : nat) (d prev : Z) : bool :=
  match fuel with
  | O => true
  | S f =>
      let cur := month_in_era (d + 1) in
      (prev <=? cur) && (cur <=? 4799) && steps_ok f (d + 1) cur
  end.

End Calendar.

(** ** Segment rules *)

(** [get_segment(r, f, m)] after its [int(...)] conversions. *)
Definition get_segment (r f m : Z) : string :=
  if (4 <=? r) && (4 <=? f) && (4 <=? m) then "Champions"%string
  else if (3 <=? r) && (3 <=? f) && (3 <=? m) then "Loyal Customers"%string
  else if (4 <=? r) && (f <=? 2) then "At Risk"%string
  else if (r <=? 2) && (3 <=? f) then "Churned"%string
  else if (3 <=? r) && (f <=? 2) then "Need Attention"%string
  else "Potential"%string.

(** ** Data model *)

(** One row of [filtered_df], restricted to the columns the two blocks read. *)
Record PurchaseRecord : Type := {
  customer_id : Z;
  purchase_date : Z;
  net_revenue : Qc;
  games_purchased : Z
}.

(** ** Group-by helpers *)

(** Order of the rows a sorted group-by emits: ascending group key. *)
Definition key_le {A} : relation (Z * A) := fun a b => a.1 <= b.1.

Global Instance key_le_dec {A} (a b : Z * A) : Decision (key_le a b) :=
  Z_le_dec a.1 b.1.

(** The groups of a finite map in ascending key order. *)
Definition sorted_items {A} (m : gmap Z A) : list (Z * A) :=
  merge_sort key_le (map_to_list m).

(** The distinct values of a key column in ascending order. *)
Definition sorted_keys (ks : list Z) : list Z :=
  merge_sort Z.le (remove_dups ks).

(** [Series.max()] of a timestamp column; [None] is [NaT]. *)
Definition ts_max (l : list Z) : option Z :=
  match l with
  | [] => None
  | x :: t => Some (foldl Z.max x t)
  end.

(** ** RFM aggregation (lines 988-997) *)

(** Running aggregate of one customer:
    [{'purchase_date': 'max', 'games_purchased': 'sum', 'net_revenue': 'sum'}]. *)
Record rfm_group : Type := {
  g_last : Z;
  g_games : Z;
  g_revenue : Qc
}.

Definition agg_step (m : gmap Z rfm_group) (r : PurchaseRecord) : gmap Z rfm_group :=
  match m !! customer_id r with
  | None =>
      <[customer_id r := {| g_last := purchase_date r;
                            g_games := games_purchased r;
                            g_revenue := net_revenue r |}]> m
  | Some g =>
      <[customer_id r := {| g_last := Z.max (g_last g) (purchase_date r);
                            g_games := g_games g + games_purchased r;
                            g_revenue := (g_revenue g + net_revenue r)%Qc |}]> m
  end.

(** [filtered_df.groupby('customer_id').agg({...})] before [reset_index]. *)
Definition groupby_agg (recs : list PurchaseRecord) : gmap Z rfm_group :=
  foldl agg_step ∅ recs.

(** A row of [rfm_data] once [recency] is added (line 997). *)
Record rfm_row : Type := {
  rfm_customer_id : Z;
  last_purchase : Z;
  frequency : Z;
  monetary : Qc;
  recency : Z
}.

Definition mk_rfm_row (gmax : Z) (kg : Z * rfm_group) : rfm_row :=
  {| rfm_customer_id := kg.1;
     last_purchase := g_last kg.2;
     frequency := g_games kg.2;
     monetary := g_revenue kg.2;
     recency := Calendar.delta_days gmax (g_last kg.2) |}.

(** [rfm_data] with its five columns.  On an empty frame the global
    maximum is [NaT] and there is no row to subtract it from. *)
Definition rfm_data (recs : list PurchaseRecord) : list rfm_row :=
  match ts_max (fmap purchase_date recs) with
  | Some gmax => fmap (mk_rfm_row gmax) (sorted_items (groupby_agg recs))
  | None => []
  end.

(** ** Quantile binning: [pd.qcut(x, q, labels=..., duplicates='drop')] *)

(** The steps are those of pandas' [qcut] and [_bins_to_cuts]: the [q + 1]
    quantile edges of the column, duplicated edges dropped, every value
    located among the edges by a left search with the lowest edge included,
    then the check that the labels are one fewer than the edges, and the
    label of each bin.  The label lists of the three call sites have no
    repeated label, so the check for repeated labels is left out. *)

Global Instance Qle_dec (x y : Q) : Decision (Qle x y) :=
  match Qlt_le_dec y x with
  | left H => right (Qlt_not_le _ _ H)
  | right H => left H
  end.

Global Instance Qle_transitive : Transitive Qle := Qle_trans.

(** A bin edge; [None] is [NaN]. *)
Definition edge : Type := option Q.

Definition edge_eqb (a b : edge) : bool :=
  match a, b with
  | Some x, Some y => Qeq_bool x y
  | None, None => true
  | _, _ => false
  end.

Definition nth_value (s : list Q) (i : Z) : Q := nth (Z.to_nat i) s 0%Q.

(** The [k/q] quantile of the ascending column [s] with linear
    interpolation; [NaN] when the column is empty. *)
Definition quantile (s : list Q) (q : positive) (k : Z) : edge :=
  match s with
  | [] => None
  | _ :: _ =>
      let n := Z.of_nat (length s) in
      let pos := (n - 1) * k in
      let lo := pos / Z.pos q in
      let hi := Z.min (lo + 1) (n - 1) in
      let a := nth_value s lo in
      let b := nth_value s hi in
      Some (a + (b - a) * (pos mod Z.pos q # q))%Q
  end.

(** [algos.unique]: first occurrences in order of appearance; all [NaN]s
    count as one value. *)
Fixpoint unique_from (seen : list edge) (l : list edge) : list edge :=
  match l with
  | [] => []
  | x :: t =>
      if existsb (edge_eqb x) seen then unique_from seen t
      else x :: unique_from (x :: seen) t
  end.

Definition unique (l : list edge) : list edge := unique_from [] l.

(** [bins.searchsorted(x, side='left')] on ascending bins: the position of
    the first edge that is not below [x] ([NaN] sorts last). *)
Fixpoint searchsorted_left (bins : list edge) (x : Q) : nat :=
  match bins with
  | Some b :: t => if Qle_bool x b then O else S (searchsorted_left t x)
  | _ => O
  end.

(** The bin number of [x], with [include_lowest=True]. *)
Definition bin_id (bins : list edge) (x : Q) : nat :=
  if edge_eqb (Some x) (default None (head bins)) then 1%nat
  else searchsorted_left bins x.

(** The label of a bin number; [None] is the [NaN] of a masked cell. *)
Definition take_label (labels : list Z) (nbins : nat) (i : nat) : option Z :=
  if ((i =? nbins)%nat || (i =? 0)%nat)%bool then None
  else labels !! (i - 1)%nat.

(** [_bins_to_cuts] with [duplicates='drop'] and a list of labels. *)
Definition bins_to_cuts (vals : list Q) (bins : list edge) (labels : list Z)
  : outcome (list (option Z)) :=
  let unique_bins := unique bins in
  let bins :=
    if ((length unique_bins <? length bins)%nat
        && negb (length bins =? 2)%nat)%bool
    then unique_bins else bins in
  if Z.of_nat (length labels) =? Z.of_nat (length bins) - 1
  then Ok (fmap (fun x => take_label labels (length bins) (bin_id bins x)) vals)
  else Raise BinLabelsMismatch.

Definition qcut_bins (vals : list Q) (q : positive) : list edge :=
  fmap (quantile (merge_sort Qle vals) q) (seqZ 0 (Z.pos q + 1)).

Definition qcut (vals : list Q) (q : positive) (labels : list Z)
  : outcome (list (option Z)) :=
  bins_to_cuts vals (qcut_bins vals q) labels.

(** [Series.rank(method='first')]: ascending ranks from 1, ties ranked in
    the order they appear in the column. *)
Definition rank_first (v : list Z) : list Z :=
  imap (fun i x =>
          1 + Z.of_nat (length (filter (fun y => y < x) v))
            + Z.of_nat (length (filter (fun y => y = x) (take i v)))) v.

(** ** RFM scores and segments (lines 1000-1022) *)

Definition r_score_column (rows : list rfm_row) : outcome (list (option Z)) :=
  qcut (fmap (fun w => inject_Z (recency w)) rows) 5 [5; 4; 3; 2; 1].

Definition f_score_column (rows : list rfm_row) : outcome (list (option Z)) :=
  qcut (fmap inject_Z (rank_first (fmap frequency rows))) 5 [1; 2; 3; 4; 5].

Definition m_score_column (rows : list rfm_row) : outcome (list (option Z)) :=
  qcut (fmap (fun w => this (monetary w)) rows) 5 [1; 2; 3; 4; 5].

(** [int(x)] of a score cell. *)
Definition to_int (s : option Z) : outcome Z :=
  match s with
  | Some z => Ok z
  | None => Raise NaNToInteger
  end.

(** One row of the finished [rfm_data] frame. *)
Record CustomerRFM : Type := {
  rfm : rfm_row;
  r_score : Z;
  f_score : Z;
  m_score : Z;
  rfm_segment : string
}.

Definition segment_row (x : rfm_row * (option Z * (option Z * option Z)))
  : outcome CustomerRFM :=
  let* r := to_int x.2.1 in
  let* f := to_int x.2.2.1 in
  let* m := to_int x.2.2.2 in
  Ok {| rfm := x.1; r_score := r; f_score := f; m_score := m;
        rfm_segment := get_segment r f m |}.

(** The whole RFM block: aggregation, the three score columns, then the
    row-wise [apply] of [get_segment]. *)
Definition rfm_segmentation (recs : list PurchaseRecord) : outcome (list CustomerRFM) :=
  let rows := rfm_data recs in
  let* rs := r_score_column rows in
  let* fs := f_score_column rows in
  let* ms := m_score_column rows in
  traverse segment_row (zip rows (zip rs (zip fs ms))).

(** ** Cohort retention (lines 1742-1750) *)

(** Running minimum of one customer:
    [groupby('customer_id')['purchase_date'].transform('min')]. *)
Definition first_step (m : gmap Z Z) (r : PurchaseRecord) : gmap Z Z :=
  match m !! customer_id r with
  | None => <[customer_id r := purchase_date r]> m
  | Some d => <[customer_id r := Z.min d (purchase_date r)]> m
  end.

Definition first_purchase (recs : list PurchaseRecord) : gmap Z Z :=
  foldl first_step ∅ recs.

(** A row of [cohort_data], restricted to the columns read afterwards. *)
Record cohort_row : Type := {
  c_customer_id : Z;
  cohort : Z;
  period : Z
}.

(** [transform] writes the minimum of a row's own group into the row. *)
Definition mk_cohort_row (fp : gmap Z Z) (r : PurchaseRecord) : cohort_row :=
  {| c_customer_id := customer_id r;
     cohort := Calendar.month_of
                 (match fp !! customer_id r with
                  | Some d => d
                  | None => purchase_date r
                  end);
     period := Calendar.month_of (purchase_date r) |}.

Definition cohort_data (recs : list PurchaseRecord) : list cohort_row :=
  fmap (mk_cohort_row (first_purchase recs)) recs.

(** One step of [groupby(key)['customer_id'].nunique()]: the customers seen
    so far in each group. *)
Definition nunique_step {K} `{Countable K} (key : cohort_row -> K)
    (m : gmap K (gset Z)) (w : cohort_row) : gmap K (gset Z) :=
  <[key w := {[c_customer_id w]} ∪ default ∅ (m !! key w)]> m.

Definition groupby_nunique {K} `{Countable K} (key : cohort_row -> K)
    (rows : list cohort_row) : gmap K nat :=
  size <$> foldl (nunique_step key) ∅ rows.

(** [cohorts]: the number of distinct customers of each cohort. *)
Definition cohorts (recs : list PurchaseRecord) : gmap Z nat :=
  groupby_nunique cohort (cohort_data recs).

(** The grouped series that [unstack] pivots. *)
Definition cohort_period_counts (recs : list PurchaseRecord) : gmap (Z * Z) nat :=
  groupby_nunique (fun w => (cohort w, period w)) (cohort_data recs).

(** A data frame with a row label per cohort and a column label per period. *)
Record frame (A : Type) : Type := {
  index : list Z;
  columns : list Z;
  cells : list (list A)
}.
Arguments index {A} f.
Arguments columns {A} f.
Arguments cells {A} f.

(** [Series.unstack(fill_value=fill)] of a series keyed by (row, column):
    the labels are the distinct first and second key components, ascending;
    an absent pair is filled. *)
Definition unstack {A} (fill : A) (s : gmap (Z * Z) A) : frame A :=
  let keys := fmap fst (map_to_list s) in
  let idx := sorted_keys (fmap fst keys) in
  let cols := sorted_keys (fmap snd keys) in
  {| index := idx;
     columns := cols;
     cells := fmap (fun c => fmap (fun p => default fill (s !! (c, p))) cols) idx |}.

Definition cohort_retention (recs : list PurchaseRecord) : frame nat :=
  unstack O (cohort_period_counts recs).

(** [cohort_retention.div(cohorts, axis=0) * 100]: every row is divided by
    the size of its cohort; a row label without a size gives [NaN] ([None]). *)
Definition cohort_retention_pct (recs : list PurchaseRecord) : frame (option Qc) :=
  let f := cohort_retention recs in
  let sizes := cohorts recs in
  {| index := index f;
     columns := columns f;
     cells :=
       fmap (fun cr : Z * list nat =>
              fmap (fun n : nat =>
                     match sizes !! cr.1 with
                     | Some k =>
                         Some (Q2Qc (inject_Z (Z.of_nat n))
                               / Q2Qc (inject_Z (Z.of_nat k))
                               * Q2Qc (inject_Z 100))%Qc
                     | None => None
                     end) cr.2)
           (zip (index f) (cells f)) |}.

(** Position of a label in a list of labels. *)
Definition label_pos (l : list Z) (x : Z) : option nat :=
  fst <$> list_find (fun y => y = x) l.

(** [f.loc[c, p]]: the cell at row label [c] and column label [p]. *)
Definition loc {A} (f : frame A) (c p : Z) : option A :=
  i ← label_pos (index f) c;
  j ← label_pos (columns f) p;
  r ← cells f !! i;
  r !! j.

(** [retained_count[c][p]] and [cohort_size[c]] of the data model. *)
Definition retained_count (recs : list PurchaseRecord) (c p : Z) : option nat :=
  loc (cohort_retention recs) c p.

Definition cohort_size (recs : list PurchaseRecord) (c : Z) : option nat :=
  cohorts recs !! c.

(** ** The segment rules as the specification words them *)

(** The ordered rule list of the specification: the first rule whose
    condition holds gives the label. *)
Definition segment_rules (r f m : Z) : list (Prop * string) :=
  [ (4 <= r /\ 4 <= f /\ 4 <= m, "Champions"%string);
    (3 <= r /\ 3 <= f /\ 3 <= m, "Loyal Customers"%string);
    (4 <= r /\ f <= 2, "At Risk"%string);
    (r <= 2 /\ 3 <= f, "Churned"%string);
    (3 <= r /\ f <= 2, "Need Attention"%string) ].

(** [first_match rules fallback lbl]: [lbl] is the label of the first rule
    that holds, or the fallback when none does. *)
Fixpoint first_match (rules : list (Prop * string)) (fallback lbl : string) : Prop :=
  match rules with
  | [] => lbl = fallback
  | (cond, l) :: rest => (cond /\ lbl = l) \/ (~ cond /\ first_match rest fallback lbl)
  end.

(** ** Vocabulary of the statements *)

(** The records of customer [c]. *)
Definition records_of (c : Z) (recs : list PurchaseRecord) : list PurchaseRecord :=
  filter (fun r => customer_id r = c) recs.

Definition sum_games (l : list PurchaseRecord) : Z :=
  foldr (fun r acc => games_purchased r + acc) 0 l.

Definition sum_revenue (l : list PurchaseRecord) : Qc :=
  foldr (fun r acc => net_revenue r + acc)%Qc (Q2Qc 0) l.

(** [d] is the latest purchase date among the records [l]. *)
Definition is_latest (d : Z) (l : list PurchaseRecord) : Prop :=
  (exists r, r ∈ l /\ purchase_date r = d)
  /\ forall r, r ∈ l -> purchase_date r <= d.

(** [d] is the earliest purchase date among the records [l]. *)
Definition is_earliest (d : Z) (l : list PurchaseRecord) : Prop :=
  (exists r, r ∈ l /\ purchase_date r = d)
  /\ forall r, r ∈ l -> d <= purchase_date r.



(** ** Sample inputs *)

Module Samples.

(** A record dated [day] days after 1970-01-01. *)
Definition purchase (c day : Z) (revenue : Z) (games : Z) : PurchaseRecord :=
  {| customer_id := c;
     purchase_date := day * Calendar.ns_per_day;
     net_revenue := Q2Qc (inject_Z revenue);
     games_purchased := games |}.

(** January to March 2024: customer 1 buys in January only, customer 2 in
    January and February, customer 3 in February only. *)
Definition three_customers : list PurchaseRecord :=
  [ purchase 1 19730 10 1; purchase 2 19732 20 1;
    purchase 2 19770 20 2; purchase 3 19765 5 1 ].

Definition jan_2024 : Z := 24288.
Definition feb_2024 : Z := 24289.

(** One customer with ten records of the same amount. *)
Definition single_customer : list PurchaseRecord :=
  (fun d => purchase 1 d 10 1) <$> seqZ 19730 10.

(** Three customers, two of whom bought on the last day of the slice. *)
Definition two_recent : list PurchaseRecord :=
  [ purchase 1 19737 10 1; purchase 2 19737 20 2; purchase 3 19730 30 3 ].


(** Five customers, customers 2 and 4 with the same frequency. *)
Definition tied_frequency : list PurchaseRecord :=
  [ purchase 4 19733 40 2; purchase 1 19730 10 1; purchase 3 19732 30 3;
    purchase 2 19731 20 2; purchase 5 19734 50 5 ].


End Samples.

(** * Further parts of the dashboard *)

(** ** Segment insights (lines 1068-1072) *)

Global Instance string_eq_decision : EqDecision string := string_dec.




(** ** Retention metrics (lines 1834-1838) *)

(** [cohort_retention_pct.loc[cohort_retention_pct.index[-1]]]: the row of
    the latest cohort; [None] is the [IndexError] on an empty frame. *)
Definition latest_retention (recs : list PurchaseRecord) : option (list (option Qc)) :=
  let f := cohort_retention_pct recs in
  c ← last (index f);
  i ← label_pos (index f) c;
  cells f !! i.

(** [latest_retention.iloc[1] if len(latest_retention) > 1 else 100]. *)
Definition month_1_retention (recs : list PurchaseRecord) : option (option Qc) :=
  row ← latest_retention recs;
  if (1 <? length row)%nat then row !! 1%nat
  else Some (Some (Q2Qc (inject_Z 100))).

(** The percentage of [n] retained customers out of a cohort of [k]. *)
Definition pct_of (n k : nat) : Qc :=
  (Q2Qc (inject_Z (Z.of_nat n)) / Q2Qc (inject_Z (Z.of_nat k))
   * Q2Qc (inject_Z 100))%Qc.

(** ** Key figures (lines 122 and 306-329) *)

(** [df['year_month']]: the month of a record. *)
Definition year_month (r : PurchaseRecord) : Z :=
  Calendar.month_of (purchase_date r).

(** [filtered_df['net_revenue'].sum()]. *)
Definition total_revenue (recs : list PurchaseRecord) : Qc :=
  foldl (fun acc r => acc + net_revenue r)%Qc (Q2Qc 0) recs.

(** [filtered_df['customer_id'].nunique()]. *)
Definition unique_buyers (recs : list PurchaseRecord) : nat :=
  size (list_to_set (customer_id <$> recs) : gset Z).

(** One step of [groupby('year_month')['customer_id'].nunique()]. *)
Definition monthly_step (m : gmap Z (gset Z)) (r : PurchaseRecord)
  : gmap Z (gset Z) :=
  <[year_month r := {[customer_id r]} ∪ default ∅ (m !! year_month r)]> m.

(** The distinct customers of each month (also [monthly_users], line 574). *)
Definition monthly_users (recs : list PurchaseRecord) : gmap Z nat :=
  size <$> foldl monthly_step ∅ recs.

(** [len(filtered_df.groupby('year_month')['customer_id'].nunique())]. *)
Definition mau_count (recs : list PurchaseRecord) : nat :=
  size (monthly_users recs).

(** [Series.mean()] of counts; [None] is the [NaN] of an empty series. *)
Definition mean_count (l : list nat) : option Qc :=
  match l with
  | [] => None
  | _ :: _ =>
      Some (Q2Qc (inject_Z (Z.of_nat (sum_list l)))
            / Q2Qc (inject_Z (Z.of_nat (length l))))%Qc
  end.

Definition avg_mau (recs : list PurchaseRecord) : option Qc :=
  mean_count (snd <$> sorted_items (monthly_users recs)).

(** [total_revenue / avg_mau if avg_mau > 0 else 0]; the comparison with
    [NaN] is false. *)
Definition arpu_val (recs : list PurchaseRecord) : Qc :=
  match avg_mau recs with
  | Some a => if Qclt_le_dec (Q2Qc 0) a then (total_revenue recs / a)%Qc else Q2Qc 0
  | None => Q2Qc 0
  end.

(** [unique_buyers / len(filtered_df) if len(filtered_df) > 0 else 0]. *)
Definition conversion_rate (recs : list PurchaseRecord) : Qc :=
  if (0 <? length recs)%nat
  then (Q2Qc (inject_Z (Z.of_nat (unique_buyers recs)))
        / Q2Qc (inject_Z (Z.of_nat (length recs))))%Qc
  else Q2Qc 0.

(** Sum of a column of amounts. *)
Definition sum_Qc (l : list Qc) : Qc := foldr Qcplus (Q2Qc 0) l.


(** ** Revenue by group (lines 311-319, 1656-1658 and 1723-1725) *)

(** One step of [groupby(key)['net_revenue'].sum()]. *)
Definition revenue_step (key : PurchaseRecord -> Z) (m : gmap Z Qc)
    (r : PurchaseRecord) : gmap Z Qc :=
  <[key r := (default (Q2Qc 0) (m !! key r) + net_revenue r)%Qc]> m.

Definition groupby_revenue (key : PurchaseRecord -> Z)
    (recs : list PurchaseRecord) : gmap Z Qc :=
  foldl (revenue_step key) ∅ recs.


Global Instance Qcge_dec (x y : Qc) : Decision (flip Qcle x y) :=
  match Qclt_le_dec x y with
  | left H => right (Qclt_not_le _ _ H)
  | right H => left H
  end.

(** The values of
    [groupby('customer_id')['net_revenue'].sum().sort_values(ascending=False)]. *)
Definition cust_revenue (recs : list PurchaseRecord) : list Qc :=
  merge_sort (flip Qcle) (snd <$> map_to_list (groupby_revenue customer_id recs)).

(** [Series.cumsum()]. *)
Fixpoint cumsum_from (acc : Qc) (l : list Qc) : list Qc :=
  match l with
  | [] => []
  | x :: t => (acc + x)%Qc :: cumsum_from (acc + x)%Qc t
  end.

Definition cumsum (l : list Qc) : list Qc := cumsum_from (Q2Qc 0) l.

(** [x / d * 100] as a float cell: not a number when [d] is 0. *)
Definition share_pct (x d : Qc) : option Qc :=
  if decide (d = Q2Qc 0) then None
  else Some (x / d * Q2Qc (inject_Z 100))%Qc.

(** [cust_cumsum / cust_cumsum.iloc[-1] * 100]; [None] is the [IndexError]
    of [iloc[-1]] on an empty series. *)
Definition cust_cumsum_pct (recs : list PurchaseRecord) : option (list (option Qc)) :=
  let cs := cumsum (cust_revenue recs) in
  total ← last cs;
  Some ((fun x => share_pct x total) <$> cs).


(** ** Sets of customers behind the counts *)

(** The customers of cohort [c], and those of cohort [c] seen in period [p]. *)
Definition cohort_members (recs : list PurchaseRecord) (c : Z) : gset Z :=
  default ∅ (foldl (nunique_step cohort) ∅ (cohort_data recs) !! c).

Definition retained_members (recs : list PurchaseRecord) (c p : Z) : gset Z :=
  default ∅ (foldl (nunique_step (fun w => (cohort w, period w))) ∅
               (cohort_data recs) !! (c, p)).

(** The customers with a purchase in month [p]. *)
Definition month_members (recs : list PurchaseRecord) (p : Z) : gset Z :=
  default ∅ (foldl monthly_step ∅ recs !! p).

(** * Properties *)

(** ** Calendar: months are monotone in time *)

Module CalendarFacts.
Import Calendar.

Lemma steps_ok_sound n : forall d,
  steps_ok n d (month_in_era d) = true ->
  forall k, 0 <= k < Z.of_nat n ->
    month_in_era (d + k) <= month_in_era (d + k + 1)
    /\ month_in_era (d + k + 1) <= 4799.
Proof.
  induction n as [|n IH]; intros d Hok k Hk; [lia|].
  cbn [steps_ok] in Hok.
  apply andb_prop in Hok as [Hok Hrest].
  apply andb_prop in Hok as [Hstep Hhi].
  destruct (Z.eq_dec k 0) as [->|Hne].
  - rewrite Z.add_0_r. lia.
  - specialize (IH (d + 1) Hrest (k - 1)).
    replace (d + 1 + (k - 1)) with (d + k) in IH by lia.
    apply IH. lia.
Qed.

Lemma era_checked : steps_ok (Z.to_nat 146096) 0 (month_in_era 0) = true.
Proof. vm_cast_no_check (eq_refl true). Qed.

Lemma month_in_era_step d :
  0 <= d < 146096 ->
  month_in_era d <= month_in_era (d + 1)
  /\ 0 <= month_in_era d /\ month_in_era (d + 1) <= 4799.
Proof.
  intros Hd.
  assert (Hall : forall k, 0 <= k < 146096 ->
            month_in_era k <= month_in_era (k + 1)
            /\ month_in_era (k + 1) <= 4799).
  { intros k Hk.
    pose proof (steps_ok_sound _ _ era_checked k) as H.
    rewrite Z2Nat.id in H by lia. rewrite !Z.add_0_l in H. apply H. lia. }
  assert (H0 : month_in_era 0 = 0) by reflexivity.
  split; [apply Hall; lia|]. split; [|apply Hall; lia].
  replace d with (Z.of_nat (Z.to_nat d)) in * by lia.
  generalize dependent (Z.to_nat d). intros n.
  induction n as [|n IH]; intros Hn;
    [change (Z.of_nat 0) with 0; rewrite H0; lia|].
  replace (Z.of_nat (S n)) with (Z.of_nat n + 1) by lia.
  pose proof (Hall (Z.of_nat n) ltac:(lia)) as [H1 _].
  specialize (IH ltac:(lia)). lia.
Qed.

Lemma month_in_era_range d :
  0 <= d <= 146096 -> 0 <= month_in_era d <= 4799.
Proof.
  intros Hd. destruct (Z.eq_dec d 146096) as [->|Hne].
  - pose proof (month_in_era_step 146095 ltac:(lia)) as (H1 & H2 & H3).
    change (146095 + 1) with 146096 in *. lia.
  - pose proof (month_in_era_step d ltac:(lia)) as (H1 & H2 & H3).
    destruct (Z.eq_dec d 0) as [->|Hne0]; [lia|].
    pose proof (month_in_era_step (d - 1) ltac:(lia)) as (H4 & H5 & H6).
    replace (d - 1 + 1) with d in * by lia. lia.
Qed.

Lemma month_in_era_mono a b :
  0 <= a -> a <= b -> b <= 146096 -> month_in_era a <= month_in_era b.
Proof.
  intros Ha Hab Hb.
  replace b with (a + Z.of_nat (Z.to_nat (b - a))) by lia.
  assert (Hn : a + Z.of_nat (Z.to_nat (b - a)) <= 146096) by lia.
  revert Hn. generalize (Z.to_nat (b - a)) as n.
  induction n as [|n IH]; intros Hn.
  - rewrite Z.add_0_r. lia.
  - pose proof (month_in_era_step (a + Z.of_nat n) ltac:(lia)) as (H1 & _).
    replace (a + Z.of_nat (S n)) with (a + Z.of_nat n + 1) by lia.
    specialize (IH ltac:(lia)). lia.
Qed.

Lemma month_of_day_mono a b : a <= b -> month_of_day a <= month_of_day b.
Proof.
  intros Hab. unfold month_of_day, days_per_era.
  set (x := a + 719468). set (y := b + 719468).
  assert (Hxy : x <= y) by (subst x y; lia).
  pose proof (Z.mod_pos_bound x 146097 ltac:(lia)) as Hx.
  pose proof (Z.mod_pos_bound y 146097 ltac:(lia)) as Hy.
  pose proof (Z.div_mod x 146097 ltac:(lia)) as Ex.
  pose proof (Z.div_mod y 146097 ltac:(lia)) as Ey.
  pose proof (month_in_era_range (x mod 146097) ltac:(lia)) as Rx.
  pose proof (month_in_era_range (y mod 146097) ltac:(lia)) as Ry.
  destruct (Z.eq_dec (x / 146097) (y / 146097)) as [Heq|Hne].
  - pose proof (month_in_era_mono (x mod 146097) (y mod 146097)
                  ltac:(lia) ltac:(lia) ltac:(lia)).
    rewrite Heq. lia.
  - assert (x / 146097 <= y / 146097) by (apply Z.div_le_mono; lia).
    lia.
Qed.

Lemma month_of_mono a b : a <= b -> month_of a <= month_of b.
Proof.
  intros Hab. unfold month_of, day_of.
  apply month_of_day_mono, Z.div_le_mono; [reflexivity | exact Hab].
Qed.

End CalendarFacts.

(** ** Segment rules *)

(** C1: for scores in [1,5] the label that [get_segment] returns is the one
    selected by the ordered rules of the specification, the first rule that
    holds winning; and the scores (4, 1, 1) give "At Risk". *)
Theorem get_segment_first_match (r f m : Z) :
  1 <= r <= 5 -> 1 <= f <= 5 -> 1 <= m <= 5 ->
  first_match (segment_rules r f m) "Potential" (get_segment r f m)
  /\ get_segment 4 1 1 = "At Risk"%string.
Proof.
  intros Hr Hf Hm. split; [|reflexivity].
  unfold get_segment, segment_rules, first_match.
  repeat match goal with
         | |- context [?a <=? ?b] =>
             destruct (Z.leb_spec a b); cbn [andb]
         end;
    repeat (first [left; split; [lia | reflexivity]
                  | right; split; [lia |] ]);
    reflexivity.
Qed.

Lemma get_segment_first_match_witness :
  first_match (segment_rules 4 1 1) "Potential" (get_segment 4 1 1)
  /\ get_segment 4 1 1 = "At Risk"%string.
Proof. apply (get_segment_first_match 4 1 1); lia. Defined.

(** ** Group-by: generic facts *)

Section fold_facts.
Context {A B : Type} (f : B -> A -> B).
Hypothesis f_swap : forall b x y, f (f b x) y = f (f b y) x.

End fold_facts.

Section sorted_items_facts.
Context {A : Type}.
Implicit Types (m : gmap Z A).

Lemma elem_of_sorted_items m k v :
  (k, v) ∈ sorted_items m <-> m !! k = Some v.
Proof.
  unfold sorted_items. rewrite merge_sort_Permutation.
  apply elem_of_map_to_list.
Qed.

Lemma NoDup_sorted_items_keys m : NoDup ((sorted_items m).*1).
Proof.
  unfold sorted_items. rewrite merge_sort_Permutation.
  apply NoDup_fst_map_to_list.
Qed.

Global Instance key_le_total : Total (@key_le A).
Proof. intros a b. unfold key_le. lia. Qed.

Global Instance key_le_trans : Transitive (@key_le A).
Proof. intros a b c. unfold key_le. lia. Qed.


Lemma sorted_items_empty : sorted_items (∅ : gmap Z A) = [].
Proof. unfold sorted_items. now rewrite map_to_list_empty. Qed.
End sorted_items_facts.

Lemma elem_of_sorted_keys ks k : k ∈ sorted_keys ks <-> k ∈ ks.
Proof.
  unfold sorted_keys. rewrite merge_sort_Permutation.
  apply elem_of_remove_dups.
Qed.

Lemma NoDup_sorted_keys ks : NoDup (sorted_keys ks).
Proof.
  unfold sorted_keys. rewrite merge_sort_Permutation.
  apply NoDup_remove_dups.
Qed.

Lemma sorted_keys_sorted ks : Sorted Z.le (sorted_keys ks).
Proof. apply Sorted_merge_sort. apply _. Qed.

(** The ascending distinct keys depend on the set of keys only. *)
Lemma sorted_keys_ext ks1 ks2 :
  (forall k, k ∈ ks1 <-> k ∈ ks2) -> sorted_keys ks1 = sorted_keys ks2.
Proof.
  intros Hext.
  apply (Sorted_unique Z.le); try apply sorted_keys_sorted.
  apply NoDup_Permutation; try apply NoDup_sorted_keys.
  intros k. rewrite !elem_of_sorted_keys. apply Hext.
Qed.

(** ** The global maximum *)

Lemma foldl_max_spec (t : list Z) : forall x,
  (foldl Z.max x t = x \/ foldl Z.max x t ∈ t)
  /\ x <= foldl Z.max x t
  /\ forall y, y ∈ t -> y <= foldl Z.max x t.
Proof.
  induction t as [|a t IH]; intros x; cbn.
  - split; [now left|]. split; [lia|]. intros y Hy. inversion Hy.
  - destruct (IH (Z.max x a)) as (Hin & Hle & Hall).
    split; [|split].
    + destruct Hin as [Heq|Hin].
      * rewrite Heq. destruct (Z.max_spec x a) as [[_ ->]|[_ ->]].
        -- right. left.
        -- now left.
      * right. now right.
    + lia.
    + intros y Hy. apply elem_of_cons in Hy as [->|Hy]; [lia|auto].
Qed.

Lemma ts_max_spec (l : list Z) g :
  ts_max l = Some g -> g ∈ l /\ forall y, y ∈ l -> y <= g.
Proof.
  destruct l as [|x t]; cbn; [discriminate|].
  intros [= <-]. destruct (foldl_max_spec t x) as (Hin & Hle & Hall).
  split.
  - destruct Hin as [->|Hin]; [left | now right].
  - intros y Hy. apply elem_of_cons in Hy as [->|Hy]; auto.
Qed.

Lemma ts_max_is_Some (l : list Z) : l <> [] -> is_Some (ts_max l).
Proof. destruct l; [congruence | eauto]. Qed.


(** ** RFM aggregation *)

Lemma sum_games_snoc l r : sum_games (l ++ [r]) = sum_games l + games_purchased r.
Proof.
  induction l as [|x l IH]; [cbn; lia|].
  change (games_purchased x + sum_games (l ++ [r])
          = games_purchased x + sum_games l + games_purchased r).
  rewrite IH. lia.
Qed.

Lemma sum_revenue_snoc l r :
  sum_revenue (l ++ [r]) = (sum_revenue l + net_revenue r)%Qc.
Proof.
  induction l as [|x l IH]; [cbn; ring|].
  change (net_revenue x + sum_revenue (l ++ [r])
          = net_revenue x + sum_revenue l + net_revenue r)%Qc.
  rewrite IH. ring.
Qed.

Lemma is_latest_singleton r : is_latest (purchase_date r) [r].
Proof.
  split.
  - exists r. split; [left | reflexivity].
  - intros r' Hr'. apply list_elem_of_singleton in Hr'. subst. lia.
Qed.

Lemma is_latest_snoc d l r :
  is_latest d l -> is_latest (Z.max d (purchase_date r)) (l ++ [r]).
Proof.
  intros [(r0 & Hin & Hd) Hle]. split.
  - destruct (Z.max_spec d (purchase_date r)) as [[_ ->]|[_ ->]].
    + exists r. split; [|reflexivity]. apply elem_of_app. right. left.
    + exists r0. split; [|assumption]. apply elem_of_app. now left.
  - intros r' Hr'. apply elem_of_app in Hr' as [Hr'|Hr'].
    + specialize (Hle _ Hr'). lia.
    + apply list_elem_of_singleton in Hr'. subst. lia.
Qed.




Lemma groupby_agg_snoc recs r :
  groupby_agg (recs ++ [r]) = agg_step (groupby_agg recs) r.
Proof. unfold groupby_agg. apply foldl_snoc. Qed.

Lemma records_of_snoc c recs r :
  records_of c (recs ++ [r])
  = records_of c recs ++ (if decide (customer_id r = c) then [r] else []).
Proof.
  unfold records_of. rewrite filter_app. reflexivity.
Qed.

(** What the group-by holds for customer [c]: nothing when [c] has no
    record, else the latest date and the two sums of the records of [c]. *)
Lemma groupby_agg_lookup recs c :
  match groupby_agg recs !! c with
  | None => records_of c recs = []
  | Some g =>
      records_of c recs <> []
      /\ is_latest (g_last g) (records_of c recs)
      /\ g_games g = sum_games (records_of c recs)
      /\ g_revenue g = sum_revenue (records_of c recs)
  end.
Proof.
  induction recs as [|r recs IH] using rev_ind.
  - unfold groupby_agg. cbn. now rewrite lookup_empty.
  - rewrite groupby_agg_snoc, records_of_snoc. unfold agg_step.
    destruct (decide (customer_id r = c)) as [<-|NE].
    + destruct (groupby_agg recs !! customer_id r) as [g|];
        rewrite lookup_insert_eq; cbn.
      * destruct IH as (Hne & Hl & Hg & Hr). split; [|split; [|split]].
        -- now destruct (records_of (customer_id r) recs).
        -- now apply is_latest_snoc.
        -- rewrite sum_games_snoc. lia.
        -- rewrite sum_revenue_snoc. now rewrite Hr.
      * rewrite IH. cbn. split; [discriminate|]. split; [|split].
        -- apply is_latest_singleton.
        -- lia.
        -- ring.
    + rewrite app_nil_r.
      destruct (groupby_agg recs !! customer_id r) as [g|];
        now rewrite lookup_insert_ne.
Qed.

Lemma records_of_nonempty c recs :
  records_of c recs <> [] <-> exists r, r ∈ recs /\ customer_id r = c.
Proof.
  unfold records_of. split.
  - destruct (filter _ recs) as [|r l] eqn:E; [congruence|]. intros _.
    assert (Hin : r ∈ filter (fun r => customer_id r = c) recs)
      by (rewrite E; left).
    apply list_elem_of_filter in Hin as [? ?]. eauto.
  - intros (r & Hin & Hc) E.
    assert (Hin' : r ∈ filter (fun r => customer_id r = c) recs)
      by (apply list_elem_of_filter; auto).
    rewrite E in Hin'. inversion Hin'.
Qed.

Lemma rfm_data_ids gmax (l : list (Z * rfm_group)) :
  rfm_customer_id <$> (mk_rfm_row gmax <$> l) = l.*1.
Proof. rewrite <- list_fmap_compose. reflexivity. Qed.

Lemma rfm_data_cases recs :
  (recs = [] /\ rfm_data recs = [])
  \/ exists gmax,
       is_latest gmax recs
       /\ rfm_data recs = mk_rfm_row gmax <$> sorted_items (groupby_agg recs).
Proof.
  unfold rfm_data. destruct recs as [|r0 recs]; [now left | right].
  destruct (ts_max_is_Some (purchase_date <$> (r0 :: recs))) as [gmax Hg];
    [discriminate|].
  rewrite Hg. exists gmax. split; [|reflexivity].
  apply ts_max_spec in Hg as [Hin Hle]. split.
  - apply list_elem_of_fmap in Hin as (r & -> & Hr). eauto.
  - intros r Hr. apply Hle. now apply list_elem_of_fmap_2.
Qed.

(** The customers of the aggregated frame are the customers of the input. *)
Lemma rfm_data_customers recs c :
  c ∈ (rfm_customer_id <$> rfm_data recs)
  <-> exists r, r ∈ recs /\ customer_id r = c.
Proof.
  destruct (rfm_data_cases recs) as [[-> ->]|(gmax & _ & ->)].
  - split; [intros Hc; inversion Hc|].
    intros (r & Hr & _). inversion Hr.
  - rewrite rfm_data_ids, <- records_of_nonempty. split.
    + intros Hin. apply list_elem_of_fmap in Hin as ([k g] & -> & Hin).
      apply elem_of_sorted_items in Hin. cbn.
      pose proof (groupby_agg_lookup recs k) as H. rewrite Hin in H. tauto.
    + intros Hrec. pose proof (groupby_agg_lookup recs c) as H.
      destruct (groupby_agg recs !! c) as [g|] eqn:E; [|contradiction].
      apply list_elem_of_fmap. exists (c, g). split; [reflexivity|].
      now apply elem_of_sorted_items.
Qed.






(** ** Cohort retention *)

Lemma is_earliest_snoc d l r :
  is_earliest d l -> is_earliest (Z.min d (purchase_date r)) (l ++ [r]).
Proof.
  intros [(r0 & Hin & Hd) Hle]. split.
  - destruct (Z.min_spec d (purchase_date r)) as [[_ ->]|[_ ->]].
    + exists r0. split; [|assumption]. apply elem_of_app. now left.
    + exists r. split; [|reflexivity]. apply elem_of_app. right. left.
  - intros r' Hr'. apply elem_of_app in Hr' as [Hr'|Hr'].
    + specialize (Hle _ Hr'). lia.
    + apply list_elem_of_singleton in Hr'. subst. lia.
Qed.



Lemma first_purchase_snoc recs r :
  first_purchase (recs ++ [r]) = first_step (first_purchase recs) r.
Proof. unfold first_purchase. apply foldl_snoc. Qed.

(** The first purchase of customer [c]: absent when [c] has no record,
    else the earliest date of the records of [c]. *)
Lemma first_purchase_lookup recs c :
  match first_purchase recs !! c with
  | None => records_of c recs = []
  | Some d => is_earliest d (records_of c recs)
  end.
Proof.
  induction recs as [|r recs IH] using rev_ind.
  - unfold first_purchase. cbn. now rewrite lookup_empty.
  - rewrite first_purchase_snoc, records_of_snoc.
    unfold first_step.
    destruct (decide (customer_id r = c)) as [<-|NE].
    + destruct (first_purchase recs !! customer_id r) as [d|];
        rewrite lookup_insert_eq.
      * now apply is_earliest_snoc.
      * rewrite IH. cbn. split.
        -- exists r. split; [left | reflexivity].
        -- intros r' Hr'. apply list_elem_of_singleton in Hr'. subst. lia.
    + rewrite app_nil_r.
      destruct (first_purchase recs !! customer_id r) as [d|];
        now rewrite lookup_insert_ne.
Qed.

Lemma first_purchase_of_record recs r :
  r ∈ recs ->
  exists d, first_purchase recs !! customer_id r = Some d
            /\ is_earliest d (records_of (customer_id r) recs).
Proof.
  intros Hr. pose proof (first_purchase_lookup recs (customer_id r)) as H.
  destruct (first_purchase recs !! customer_id r) as [d|]; [eauto|].
  exfalso. apply (proj2 (records_of_nonempty (customer_id r) recs)); eauto.
Qed.

(** Every row of [cohort_data] lies in or after its cohort month, and its
    customer has a row in the cohort month itself. *)
Lemma cohort_data_row recs w :
  w ∈ cohort_data recs ->
  cohort w <= period w
  /\ exists w0, w0 ∈ cohort_data recs
       /\ c_customer_id w0 = c_customer_id w
       /\ cohort w0 = cohort w /\ period w0 = cohort w.
Proof.
  unfold cohort_data. intros Hw.
  apply list_elem_of_fmap in Hw as (r & -> & Hr).
  destruct (first_purchase_of_record recs r Hr) as (d & Hd & (r0 & Hr0 & E0) & Hle).
  unfold mk_cohort_row at 1 2 4 5 6. cbn. rewrite Hd. split.
  - apply CalendarFacts.month_of_mono, Hle.
    apply list_elem_of_filter. split; [reflexivity | exact Hr].
  - apply list_elem_of_filter in Hr0 as [Hc0 Hr0].
    exists (mk_cohort_row (first_purchase recs) r0).
    split; [now apply list_elem_of_fmap_2|].
    unfold mk_cohort_row. cbn. rewrite Hc0, Hd, E0. auto.
Qed.

Section nunique_facts.
Context {K : Type} {EqK : EqDecision K} {CntK : Countable K}.
Context (key : cohort_row -> K).


(** The customers collected for group [k]: absent when no row has key
    [k], else exactly the customers of the rows with key [k]. *)
Lemma nunique_sets_lookup (rows : list cohort_row) k :
  match foldl (nunique_step key) ∅ rows !! k with
  | None => forall w, w ∈ rows -> key w <> k
  | Some s =>
      (exists w, w ∈ rows /\ key w = k)
      /\ forall x, x ∈ s <->
           exists w, w ∈ rows /\ key w = k /\ c_customer_id w = x
  end.
Proof.
  induction rows as [|w rows IH] using rev_ind.
  - cbn. rewrite lookup_empty. intros w Hw. inversion Hw.
  - rewrite foldl_snoc. unfold nunique_step at 1.
    destruct (decide (key w = k)) as [<-|NE].
    + rewrite lookup_insert_eq. split.
      * exists w. split; [|reflexivity]. apply elem_of_app. right. left.
      * intros x. rewrite elem_of_union, elem_of_singleton.
        destruct (foldl (nunique_step key) ∅ rows !! key w) as [s|]; cbn.
        -- destruct IH as [_ IH]. rewrite IH. split.
           ++ intros [->|(w' & Hw' & Hk & Hx)].
              ** exists w. split; [|auto]. apply elem_of_app. right. left.
              ** exists w'. split; [|auto]. apply elem_of_app. now left.
           ++ intros (w' & Hw' & Hk & Hx).
              apply elem_of_app in Hw' as [Hw'|Hw']; [right; eauto|].
              apply list_elem_of_singleton in Hw'. subst. now left.
        -- split.
           ++ intros [->|Hx]; [|set_solver].
              exists w. split; [|auto]. apply elem_of_app. right. left.
           ++ intros (w' & Hw' & Hk & Hx).
              apply elem_of_app in Hw' as [Hw'|Hw'].
              ** now destruct (IH w' Hw').
              ** apply list_elem_of_singleton in Hw'. subst. now left.
    + rewrite lookup_insert_ne by exact NE.
      destruct (foldl (nunique_step key) ∅ rows !! k) as [s|].
      * destruct IH as [(w0 & Hw0 & Hk0) IH]. split.
        -- exists w0. split; [|exact Hk0]. apply elem_of_app. now left.
        -- intros x. rewrite IH. split.
           ++ intros (w' & Hw' & Hk & Hx).
              exists w'. split; [|auto]. apply elem_of_app. now left.
           ++ intros (w' & Hw' & Hk & Hx).
              apply elem_of_app in Hw' as [Hw'|Hw']; [eauto|].
              apply list_elem_of_singleton in Hw'. subst. contradiction.
      * intros w' Hw'. apply elem_of_app in Hw' as [Hw'|Hw']; [auto|].
        apply list_elem_of_singleton in Hw'. now subst.
Qed.

End nunique_facts.

(** *** Reading the pivoted frame *)

Lemma label_pos_elem_of (l : list Z) x :
  x ∈ l -> exists i, label_pos l x = Some i /\ l !! i = Some x.
Proof.
  intros Hx. unfold label_pos.
  destruct (list_find_elem_of (fun y => y = x) l x Hx eq_refl) as [[i y] Hf].
  rewrite Hf. exists i. split; [reflexivity|].
  apply list_find_Some in Hf as (Hi & -> & _). exact Hi.
Qed.

Lemma label_pos_not_elem_of (l : list Z) x : x ∉ l -> label_pos l x = None.
Proof.
  intros Hx. unfold label_pos.
  destruct (list_find _ l) as [[i y]|] eqn:Hf; [|reflexivity].
  apply list_find_Some in Hf as (Hi & -> & _).
  exfalso. apply Hx. eapply list_elem_of_lookup_2, Hi.
Qed.

Section unstack_facts.
Context {A : Type} (fill : A) (s : gmap (Z * Z) A).

Lemma elem_of_unstack_index c :
  c ∈ index (unstack fill s) <-> exists p, is_Some (s !! (c, p)).
Proof.
  cbn. rewrite elem_of_sorted_keys, <- list_fmap_compose. split.
  - intros Hc. apply list_elem_of_fmap in Hc as ([[c' p] v] & -> & Hin).
    apply elem_of_map_to_list in Hin. exists p. cbn. eauto.
  - intros (p & v & Hv). apply list_elem_of_fmap.
    exists ((c, p), v). split; [reflexivity|].
    now apply elem_of_map_to_list.
Qed.

Lemma elem_of_unstack_columns p :
  p ∈ columns (unstack fill s) <-> exists c, is_Some (s !! (c, p)).
Proof.
  cbn. rewrite elem_of_sorted_keys, <- list_fmap_compose. split.
  - intros Hp. apply list_elem_of_fmap in Hp as ([[c p'] v] & -> & Hin).
    apply elem_of_map_to_list in Hin. exists c. cbn. eauto.
  - intros (c & v & Hv). apply list_elem_of_fmap.
    exists ((c, p), v). split; [reflexivity|].
    now apply elem_of_map_to_list.
Qed.

(** A cell of the pivoted frame is the grouped value, or the fill. *)
Lemma loc_unstack c p :
  c ∈ index (unstack fill s) -> p ∈ columns (unstack fill s) ->
  loc (unstack fill s) c p = Some (default fill (s !! (c, p))).
Proof.
  intros Hc Hp. unfold loc.
  destruct (label_pos_elem_of _ _ Hc) as (i & -> & Hi).
  destruct (label_pos_elem_of _ _ Hp) as (j & -> & Hj).
  cbn in *. rewrite list_lookup_fmap, Hi. cbn.
  rewrite list_lookup_fmap, Hj. reflexivity.
Qed.

Lemma loc_unstack_no_row c p :
  c ∉ index (unstack fill s) -> loc (unstack fill s) c p = None.
Proof.
  intros Hc. unfold loc. rewrite (label_pos_not_elem_of _ _ Hc). reflexivity.
Qed.
End unstack_facts.

(** *** The two cohort invariants *)

Lemma cohort_period_counts_lookup recs c p :
  cohort_period_counts recs !! (c, p)
  = size <$> (foldl (nunique_step (fun w => (cohort w, period w))) ∅
                (cohort_data recs) !! (c, p)).
Proof. unfold cohort_period_counts, groupby_nunique. apply lookup_fmap. Qed.

Lemma cohorts_lookup recs c :
  cohorts recs !! c
  = size <$> (foldl (nunique_step cohort) ∅ (cohort_data recs) !! c).
Proof. unfold cohorts, groupby_nunique. apply lookup_fmap. Qed.

(** A group of the pivoted series exists only at or after its cohort month. *)
Lemma cohort_period_counts_Some recs c p :
  is_Some (cohort_period_counts recs !! (c, p)) -> c <= p.
Proof.
  rewrite cohort_period_counts_lookup. intros [n Hn].
  pose proof (nunique_sets_lookup (fun w => (cohort w, period w))
                (cohort_data recs) (c, p)) as H.
  destruct (foldl _ ∅ (cohort_data recs) !! (c, p)) as [s|]; [|discriminate].
  destruct H as [(w & Hw & [= <- <-]) _].
  now apply cohort_data_row in Hw as [Hle _].
Qed.

(** The customers retained by cohort [c] in its own month are all the
    customers of the cohort. *)
Lemma cohort_diagonal recs c :
  cohort_period_counts recs !! (c, c) = cohorts recs !! c.
Proof.
  rewrite cohort_period_counts_lookup, cohorts_lookup.
  pose proof (nunique_sets_lookup (fun w => (cohort w, period w))
                (cohort_data recs) (c, c)) as H2.
  pose proof (nunique_sets_lookup cohort (cohort_data recs) c) as H1.
  destruct (foldl (nunique_step (fun w => (cohort w, period w))) ∅
              (cohort_data recs) !! (c, c)) as [s2|],
           (foldl (nunique_step cohort) ∅ (cohort_data recs) !! c) as [s1|];
    cbn.
  - destruct H1 as [_ H1], H2 as [_ H2]. do 2 f_equal.
    apply set_eq. intros x. rewrite H1, H2. split.
    + intros (w & Hw & [= Hc Hp] & Hx). eauto.
    + intros (w & Hw & Hc & Hx).
      destruct (cohort_data_row _ _ Hw) as (_ & w0 & Hw0 & Hx0 & Hc0 & Hp0).
      exists w0. split; [exact Hw0|]. split; [|congruence].
      f_equal; congruence.
  - destruct H2 as [(w & Hw & [= Hc Hp]) _]. now destruct (H1 w Hw).
  - destruct H1 as [(w & Hw & Hc) _].
    destruct (cohort_data_row _ _ Hw) as (_ & w0 & Hw0 & Hx0 & Hc0 & Hp0).
    destruct (H2 w0 Hw0). f_equal; congruence.
  - reflexivity.
Qed.

Lemma cohort_index_has_size recs c :
  c ∈ index (cohort_retention recs) <-> is_Some (cohort_size recs c).
Proof.
  unfold cohort_retention, cohort_size. rewrite elem_of_unstack_index.
  rewrite <- cohort_diagonal. split.
  - intros (p & n & Hn).
    rewrite cohort_period_counts_lookup in Hn.
    rewrite cohort_period_counts_lookup.
    pose proof (nunique_sets_lookup (fun w => (cohort w, period w))
                  (cohort_data recs) (c, p)) as H.
    destruct (foldl _ ∅ (cohort_data recs) !! (c, p)) as [s|]; [|discriminate].
    destruct H as [(w & Hw & [= Hc Hp]) _].
    destruct (cohort_data_row _ _ Hw) as (_ & w0 & Hw0 & Hx0 & Hc0 & Hp0).
    pose proof (nunique_sets_lookup (fun w => (cohort w, period w))
                  (cohort_data recs) (c, c)) as H'.
    destruct (foldl _ ∅ (cohort_data recs) !! (c, c)) as [s'|]; [cbn; eauto|].
    destruct (H' w0 Hw0). f_equal; congruence.
  - eauto.
Qed.

(** C4: for every cohort [c] of the cohort matrix, the count retained in
    the cohort's own month is the size of the cohort. *)
Theorem retained_in_own_month (recs : list PurchaseRecord) (c : Z) :
  c ∈ index (cohort_retention recs) ->
  exists n, cohort_size recs c = Some n /\ retained_count recs c c = Some n.
Proof.
  intros Hc.
  destruct (proj1 (cohort_index_has_size recs c) Hc) as [n Hn].
  exists n. split; [exact Hn|].
  unfold retained_count, cohort_retention, cohort_size in *.
  rewrite loc_unstack.
  - now rewrite cohort_diagonal, Hn.
  - exact Hc.
  - apply elem_of_unstack_columns. exists c.
    rewrite cohort_diagonal, Hn. eauto.
Qed.

(** C5: a cell of the cohort matrix whose period month lies before its
    cohort month holds 0, and the grouped series has no entry for it. *)
Theorem no_retention_before_cohort (recs : list PurchaseRecord) (c p : Z) :
  c ∈ index (cohort_retention recs) ->
  p ∈ columns (cohort_retention recs) ->
  p < c ->
  retained_count recs c p = Some O
  /\ cohort_period_counts recs !! (c, p) = None.
Proof.
  intros Hc Hp Hlt.
  assert (Hnone : cohort_period_counts recs !! (c, p) = None).
  { destruct (cohort_period_counts recs !! (c, p)) as [n|] eqn:E;
      [|reflexivity].
    assert (c <= p) by (apply (cohort_period_counts_Some recs); eauto). lia. }
  split; [|exact Hnone].
  unfold retained_count, cohort_retention in *.
  rewrite loc_unstack by assumption. now rewrite Hnone.
Qed.

(** ** Order of the input rows *)







Lemma retained_in_own_month_witness :
  Samples.jan_2024 ∈ index (cohort_retention Samples.three_customers)
  /\ exists n, cohort_size Samples.three_customers Samples.jan_2024 = Some n
       /\ retained_count Samples.three_customers
            Samples.jan_2024 Samples.jan_2024 = Some n.
Proof.
  assert (H : Samples.jan_2024 ∈ index (cohort_retention Samples.three_customers))
    by (vm_compute; left).
  split; [exact H|].
  exact (retained_in_own_month Samples.three_customers Samples.jan_2024 H).
Defined.

Lemma no_retention_before_cohort_witness :
  Samples.feb_2024 ∈ index (cohort_retention Samples.three_customers)
  /\ Samples.jan_2024 ∈ columns (cohort_retention Samples.three_customers)
  /\ Samples.jan_2024 < Samples.feb_2024
  /\ retained_count Samples.three_customers
       Samples.feb_2024 Samples.jan_2024 = Some O
  /\ cohort_period_counts Samples.three_customers
       !! (Samples.feb_2024, Samples.jan_2024) = None.
Proof.
  assert (H1 : Samples.feb_2024 ∈ index (cohort_retention Samples.three_customers))
    by (vm_compute; right; left).
  assert (H2 : Samples.jan_2024 ∈ columns (cohort_retention Samples.three_customers))
    by (vm_compute; left).
  assert (H3 : Samples.jan_2024 < Samples.feb_2024) by reflexivity.
  split; [exact H1|]. split; [exact H2|]. split; [exact H3|].
  exact (no_retention_before_cohort Samples.three_customers _ _ H1 H2 H3).
Defined.


(** ** Shape of the finished table *)








(** ** Results on the sample inputs *)


(** C6: three customers with two or more distinct values on every
    dimension; two quantile edges of the recency column coincide and the
    recency score column is not computed. *)
Theorem two_recent_scoring_raises :
  recency <$> rfm_data Samples.two_recent = [0; 0; 7]
  /\ frequency <$> rfm_data Samples.two_recent = [1; 2; 3]
  /\ (fun w => this (monetary w)) <$> rfm_data Samples.two_recent
     = [inject_Z 10; inject_Z 20; inject_Z 30]
  /\ r_score_column (rfm_data Samples.two_recent) = Raise BinLabelsMismatch
  /\ rfm_segmentation Samples.two_recent = Raise BinLabelsMismatch.
Proof. repeat split; vm_compute; reflexivity. Qed.




(** ** No validation of the input *)



(** ** Ties in the frequency score *)












(** ** Range of the scores *)




(** ** The frequency score on equal frequencies *)









Lemma seqZ_quantiles : seqZ 0 (Z.pos 5 + 1) = [0; 1; 2; 3; 4; 5].
Proof. reflexivity. Qed.

Global Instance Qle_total_rel : Total Qle.
Proof.
  intros x y. destruct (Qlt_le_dec x y) as [H|H]; [left | right; exact H].
  now apply Qlt_le_weak.
Qed.










(** * Further properties *)

(** ** Order of the customer table *)


(** ** Scores follow the order of the values *)









(** ** A column of equal values *)

Lemma bins_to_cuts_Raise vals bins labels e :
  bins_to_cuts vals bins labels = Raise e -> e = BinLabelsMismatch.
Proof.
  unfold bins_to_cuts. destruct (_ =? _); [discriminate|]. now intros [= <-].
Qed.

Lemma nth_value_elem_of (s : list Q) i :
  0 <= i < Z.of_nat (length s) -> nth_value s i ∈ s.
Proof.
  intros Hi. unfold nth_value. apply list_elem_of_In, nth_In. lia.
Qed.

(** Every quantile of a column of equal values is that value. *)
Lemma quantile_constant (s : list Q) (x : Q) k :
  s <> [] -> (forall v, v ∈ s -> v == x)%Q -> 0 <= k <= 5 ->
  exists q, quantile s 5 k = Some q /\ (q == x)%Q.
Proof.
  intros Hne Hall Hk. unfold quantile.
  destruct s as [|v0 t] eqn:Es; [congruence|]. rewrite <- Es in *.
  assert (Hlen : 1 <= Z.of_nat (length s)) by (subst s; cbn; lia).
  set (n := Z.of_nat (length s)) in *.
  set (pos := (n - 1) * k).
  assert (Hpos : 0 <= pos <= 5 * (n - 1)) by (subst pos; nia).
  assert (Hlo : 0 <= pos / 5 <= n - 1).
  { split; [apply Z.div_pos; lia|]. apply Z.div_le_upper_bound; lia. }
  eexists. split; [reflexivity|].
  rewrite (Hall (nth_value s (pos / 5))) by (apply nth_value_elem_of; lia).
  rewrite (Hall (nth_value s (Z.min (pos / 5 + 1) (n - 1))))
    by (apply nth_value_elem_of; lia).
  ring.
Qed.

(** Binning a non-empty column of equal values with five labels raises:
    the six edges collapse to one. *)
Lemma qcut_constant (vals : list Q) (x : Q) (labels : list Z) :
  vals <> [] -> (forall v, v ∈ vals -> v == x)%Q -> length labels = 5%nat ->
  qcut vals 5 labels = Raise BinLabelsMismatch.
Proof.
  intros Hne Hall Hlab. unfold qcut, qcut_bins.
  rewrite seqZ_quantiles. cbn [fmap list_fmap].
  set (s := merge_sort Qle vals).
  assert (Hs : s <> []).
  { intros E. apply Hne. apply Permutation_nil_r.
    rewrite <- E. subst s. symmetry. apply merge_sort_Permutation. }
  assert (Hsall : forall v, v ∈ s -> (v == x)%Q).
  { intros v Hv. apply Hall. subst s. now rewrite merge_sort_Permutation in Hv. }
  destruct (quantile_constant s x 0 Hs Hsall ltac:(lia)) as (q0 & -> & H0).
  destruct (quantile_constant s x 1 Hs Hsall ltac:(lia)) as (q1 & -> & H1).
  destruct (quantile_constant s x 2 Hs Hsall ltac:(lia)) as (q2 & -> & H2).
  destruct (quantile_constant s x 3 Hs Hsall ltac:(lia)) as (q3 & -> & H3).
  destruct (quantile_constant s x 4 Hs Hsall ltac:(lia)) as (q4 & -> & H4).
  destruct (quantile_constant s x 5 Hs Hsall ltac:(lia)) as (q5 & -> & H5).
  unfold bins_to_cuts. cbv zeta.
  match goal with
  | |- context [unique ?l] => assert (Hu : unique l = [Some q0])
  end.
  { unfold unique. cbn [unique_from existsb edge_eqb orb].
    assert (E : forall q, (q == x)%Q -> Qeq_bool q q0 = true).
    { intros q Hq. apply Qeq_bool_iff. now rewrite Hq, H0. }
    rewrite (E q1 H1). cbn [orb]. rewrite (E q2 H2). cbn [orb].
    rewrite (E q3 H3). cbn [orb]. rewrite (E q4 H4). cbn [orb].
    rewrite (E q5 H5). reflexivity. }
  rewrite Hu, Hlab. reflexivity.
Qed.

(** X4: when the customers of a non-empty input all have the same recency
    (they all bought last on the same day, or there is one customer), or
    all have the same monetary total, the RFM block raises the bin-label
    error and returns no table. *)
Theorem single_valued_column_raises (recs : list PurchaseRecord) :
  recs <> [] ->
  (forall a b, a ∈ rfm_data recs -> b ∈ rfm_data recs -> recency a = recency b)
  \/ (forall a b, a ∈ rfm_data recs -> b ∈ rfm_data recs -> monetary a = monetary b) ->
  rfm_segmentation recs = Raise BinLabelsMismatch.
Proof.
  intros Hne Hsame.
  assert (Hrows : rfm_data recs <> []).
  { destruct recs as [|r0 recs]; [congruence|].
    assert (Hc : customer_id r0 ∈ (rfm_customer_id <$> rfm_data (r0 :: recs))).
    { apply rfm_data_customers. exists r0. split; [left | reflexivity]. }
    intros E. rewrite E in Hc. inversion Hc. }
  destruct (rfm_data recs) as [|w0 rows] eqn:Erows; [congruence|].
  unfold rfm_segmentation. rewrite Erows.
  destruct Hsame as [Hr|Hm].
  - assert (E : r_score_column (w0 :: rows) = Raise BinLabelsMismatch).
    { apply (qcut_constant _ (inject_Z (recency w0))); [discriminate| |reflexivity].
      intros v Hv. apply list_elem_of_fmap in Hv as (w & -> & Hw).
      rewrite (Hr w w0 Hw ltac:(left)). reflexivity. }
    rewrite E. reflexivity.
  - assert (E : m_score_column (w0 :: rows) = Raise BinLabelsMismatch).
    { apply (qcut_constant _ (this (monetary w0))); [discriminate| |reflexivity].
      intros v Hv. apply list_elem_of_fmap in Hv as (w & -> & Hw).
      rewrite (Hm w w0 Hw ltac:(left)). reflexivity. }
    destruct (r_score_column (w0 :: rows)) as [rs|e] eqn:Er; cbn.
    + destruct (f_score_column (w0 :: rows)) as [fs|e] eqn:Ef; cbn.
      * rewrite E. reflexivity.
      * now rewrite (bins_to_cuts_Raise _ _ _ _ Ef).
    + now rewrite (bins_to_cuts_Raise _ _ _ _ Er).
Qed.

Lemma single_valued_column_raises_witness :
  Samples.single_customer <> []
  /\ ((forall a b, a ∈ rfm_data Samples.single_customer ->
                   b ∈ rfm_data Samples.single_customer -> recency a = recency b)
      \/ (forall a b, a ∈ rfm_data Samples.single_customer ->
                      b ∈ rfm_data Samples.single_customer ->
                      monetary a = monetary b))
  /\ rfm_segmentation Samples.single_customer = Raise BinLabelsMismatch.
Proof.
  assert (H1 : Samples.single_customer <> []) by discriminate.
  assert (H2 : forall a b, a ∈ rfm_data Samples.single_customer ->
                 b ∈ rfm_data Samples.single_customer -> recency a = recency b).
  { assert (E : exists w, rfm_data Samples.single_customer = [w])
      by (vm_compute; eauto).
    destruct E as [w ->]. intros a b Ha Hb.
    apply list_elem_of_singleton in Ha, Hb. now subst. }
  split; [exact H1|]. split; [left; exact H2|].
  exact (single_valued_column_raises Samples.single_customer H1 (or_introl H2)).
Defined.

(** ** Segments *)






(** ** Retention percentages *)

Lemma Q2Qc_inject_Z_nonzero z : z <> 0 -> Q2Qc (inject_Z z) <> Q2Qc 0.
Proof.
  intros Hz E. apply Q2Qc_eq_iff in E.
  apply (inject_Z_injective z 0) in E. contradiction.
Qed.

Lemma pct_of_bounds n k :
  (0 < k)%nat -> (n <= k)%nat ->
  (Q2Qc 0 <= pct_of n k)%Qc /\ (pct_of n k <= Q2Qc (inject_Z 100))%Qc.
Proof.
  intros Hk Hn. unfold pct_of, Qcle, Qcdiv, Qcmult, Qcinv. cbn [this Q2Qc].
  repeat setoid_rewrite Qred_correct.
  set (a := inject_Z (Z.of_nat n)). set (b := inject_Z (Z.of_nat k)).
  assert (Ha : (0 <= a)%Q) by (subst a; change 0%Q with (inject_Z 0);
                               rewrite <- Zle_Qle; lia).
  assert (Hb : (0 < b)%Q) by (subst b; change 0%Q with (inject_Z 0);
                              rewrite <- Zlt_Qlt; lia).
  assert (Hab : (a <= b)%Q) by (subst a b; rewrite <- Zle_Qle; lia).
  assert (H1 : (a * / b <= 1)%Q).
  { apply Qle_shift_div_r; [exact Hb | lra]. }
  assert (H0 : (0 <= a * / b)%Q).
  { apply Qle_shift_div_l; [exact Hb | lra]. }
  change (inject_Z 100) with 100%Q. split; lra.
Qed.

Lemma pct_of_all k : (0 < k)%nat -> pct_of k k = Q2Qc (inject_Z 100).
Proof.
  intros Hk. unfold pct_of. field.
  apply Q2Qc_inject_Z_nonzero. lia.
Qed.

Lemma pct_of_none k : pct_of 0 k = Q2Qc 0.
Proof. unfold pct_of. change (Q2Qc (inject_Z (Z.of_nat 0))) with (Q2Qc 0). unfold Qcdiv. ring. Qed.

(** A group of the pivoted series is a non-empty part of its cohort. *)
Lemma cohort_period_counts_le recs c p n :
  cohort_period_counts recs !! (c, p) = Some n ->
  exists k, cohorts recs !! c = Some k /\ (0 < n <= k)%nat.
Proof.
  rewrite cohort_period_counts_lookup, cohorts_lookup.
  pose proof (nunique_sets_lookup (fun w => (cohort w, period w))
                (cohort_data recs) (c, p)) as H2.
  pose proof (nunique_sets_lookup cohort (cohort_data recs) c) as H1.
  destruct (foldl (nunique_step (fun w => (cohort w, period w))) ∅
              (cohort_data recs) !! (c, p)) as [s2|]; [|discriminate].
  cbn. intros [= <-].
  destruct H2 as [(w & Hw & [= Hc Hp]) H2].
  destruct (foldl (nunique_step cohort) ∅ (cohort_data recs) !! c) as [s1|].
  - destruct H1 as [_ H1]. exists (size s1). split; [reflexivity|]. split.
    + assert (Hin : c_customer_id w ∈ s2).
      { apply H2. exists w. split; [exact Hw|]. split; [|reflexivity].
        cbn. congruence. }
      destruct (decide (size s2 = 0%nat)) as [E|NE]; [|lia].
      apply size_empty_inv in E. apply leibniz_equiv in E. subst.
      now apply not_elem_of_empty in Hin.
    + apply subseteq_size. intros x Hx. apply H2 in Hx as (w' & Hw' & [= Hc' Hp'] & Hx).
      apply H1. exists w'. auto.
  - now destruct (H1 w Hw).
Qed.

Lemma cohort_index_columns recs c :
  c ∈ index (cohort_retention recs) -> c ∈ columns (cohort_retention recs).
Proof.
  intros Hc. destruct (proj1 (cohort_index_has_size recs c) Hc) as [n Hn].
  unfold cohort_retention, cohort_size in *.
  apply elem_of_unstack_columns. exists c. rewrite cohort_diagonal, Hn. eauto.
Qed.

(** A cell of the percentage frame. *)
Lemma loc_cohort_retention_pct recs c p :
  c ∈ index (cohort_retention recs) -> p ∈ columns (cohort_retention recs) ->
  exists k, cohorts recs !! c = Some k /\ (0 < k)%nat
    /\ loc (cohort_retention_pct recs) c p
       = Some (Some (pct_of (default 0%nat (cohort_period_counts recs !! (c, p))) k)).
Proof.
  intros Hc Hp.
  destruct (proj1 (cohort_index_has_size recs c) Hc) as [k Hk].
  unfold cohort_size in Hk. exists k. split; [exact Hk|].
  split.
  { pose proof (cohort_diagonal recs c) as Hd. rewrite Hk in Hd.
    apply cohort_period_counts_le in Hd as (k' & Hk' & Hpos). lia. }
  unfold loc, cohort_retention_pct. cbn [index columns cells].
  destruct (label_pos_elem_of _ _ Hc) as (i & -> & Hi).
  destruct (label_pos_elem_of _ _ Hp) as (j & -> & Hj).
  cbn [mbind option_bind].
  unfold cohort_retention, unstack in *. cbn [index columns cells] in *.
  rewrite list_lookup_fmap, lookup_zip_with, Hi. cbn.
  rewrite list_lookup_fmap, Hi. cbn.
  rewrite !list_lookup_fmap, Hj. cbn. rewrite Hk. reflexivity.
Qed.

(** X6: every cell of the percentage frame is a number (never [NaN])
    between 0 and 100: the count retained by a cohort in a period is at
    most the size of the cohort, which is positive. *)
Theorem retention_pct_between_0_and_100 (recs : list PurchaseRecord) (c p : Z) :
  c ∈ index (cohort_retention recs) ->
  p ∈ columns (cohort_retention recs) ->
  exists n k v,
    retained_count recs c p = Some n
    /\ cohort_size recs c = Some k
    /\ (n <= k)%nat /\ (0 < k)%nat
    /\ loc (cohort_retention_pct recs) c p = Some (Some v)
    /\ (Q2Qc 0 <= v)%Qc /\ (v <= Q2Qc (inject_Z 100))%Qc.
Proof.
  intros Hc Hp.
  destruct (loc_cohort_retention_pct recs c p Hc Hp) as (k & Hk & Hpos & Hloc).
  exists (default 0%nat (cohort_period_counts recs !! (c, p))), k.
  eexists. unfold retained_count, cohort_size, cohort_retention.
  rewrite loc_unstack by assumption.
  split; [reflexivity|]. split; [exact Hk|].
  assert (Hle : (default 0%nat (cohort_period_counts recs !! (c, p)) <= k)%nat).
  { destruct (cohort_period_counts recs !! (c, p)) as [n|] eqn:E; cbn; [|lia].
    apply cohort_period_counts_le in E as (k' & Hk' & Hn).
    rewrite Hk in Hk'. injection Hk' as <-. lia. }
  split; [exact Hle|]. split; [exact Hpos|]. split; [exact Hloc|].
  now apply pct_of_bounds.
Qed.

Lemma retention_pct_between_0_and_100_witness :
  Samples.jan_2024 ∈ index (cohort_retention Samples.three_customers)
  /\ Samples.feb_2024 ∈ columns (cohort_retention Samples.three_customers)
  /\ exists n k v,
       retained_count Samples.three_customers Samples.jan_2024 Samples.feb_2024
       = Some n
       /\ cohort_size Samples.three_customers Samples.jan_2024 = Some k
       /\ (n <= k)%nat /\ (0 < k)%nat
       /\ loc (cohort_retention_pct Samples.three_customers)
            Samples.jan_2024 Samples.feb_2024 = Some (Some v)
       /\ (Q2Qc 0 <= v)%Qc /\ (v <= Q2Qc (inject_Z 100))%Qc.
Proof.
  assert (H1 : Samples.jan_2024 ∈ index (cohort_retention Samples.three_customers))
    by (vm_compute; left).
  assert (H2 : Samples.feb_2024 ∈ columns (cohort_retention Samples.three_customers))
    by (vm_compute; right; left).
  split; [exact H1|]. split; [exact H2|].
  exact (retention_pct_between_0_and_100 Samples.three_customers _ _ H1 H2).
Defined.

(** X7: in the percentage frame every cohort shows 100 in its own month
    and 0 in every period before it. *)
Theorem retention_pct_diagonal (recs : list PurchaseRecord) (c : Z) :
  c ∈ index (cohort_retention recs) ->
  loc (cohort_retention_pct recs) c c = Some (Some (Q2Qc (inject_Z 100)))
  /\ forall p, p ∈ columns (cohort_retention recs) -> p < c ->
       loc (cohort_retention_pct recs) c p = Some (Some (Q2Qc 0)).
Proof.
  intros Hc. split.
  - destruct (loc_cohort_retention_pct recs c c Hc (cohort_index_columns _ _ Hc))
      as (k & Hk & Hpos & ->).
    rewrite cohort_diagonal, Hk. cbn. now rewrite pct_of_all.
  - intros p Hp Hlt.
    destruct (loc_cohort_retention_pct recs c p Hc Hp) as (k & Hk & Hpos & ->).
    destruct (cohort_period_counts recs !! (c, p)) as [n|] eqn:E.
    + assert (c <= p) by (apply (cohort_period_counts_Some recs); eauto). lia.
    + cbn. now rewrite pct_of_none.
Qed.

Lemma retention_pct_diagonal_witness :
  Samples.feb_2024 ∈ index (cohort_retention Samples.three_customers)
  /\ loc (cohort_retention_pct Samples.three_customers)
       Samples.feb_2024 Samples.feb_2024 = Some (Some (Q2Qc (inject_Z 100)))
  /\ forall p, p ∈ columns (cohort_retention Samples.three_customers) ->
       p < Samples.feb_2024 ->
       loc (cohort_retention_pct Samples.three_customers) Samples.feb_2024 p
       = Some (Some (Q2Qc 0)).
Proof.
  assert (H1 : Samples.feb_2024 ∈ index (cohort_retention Samples.three_customers))
    by (vm_compute; right; left).
  split; [exact H1|].
  exact (retention_pct_diagonal Samples.three_customers _ H1).
Defined.

(** ** Labels of the cohort matrix *)

Lemma sorted_keys_strictly_sorted ks : StronglySorted Z.lt (sorted_keys ks).
Proof.
  pose proof (Sorted_StronglySorted Z.le _ (sorted_keys_sorted ks)) as Hs.
  pose proof (NoDup_sorted_keys ks) as Hnd.
  induction Hs as [|x l Hl IH Hall]; [constructor|].
  apply NoDup_cons in Hnd as [Hx Hnd].
  constructor; [now apply IH|].
  rewrite Forall_forall in *. intros y Hy. specialize (Hall y Hy).
  assert (x <> y) by (intros ->; contradiction). lia.
Qed.

Lemma StronglySorted_head_le (l : list Z) x y :
  StronglySorted Z.lt l -> head l = Some x -> y ∈ l -> x <= y.
Proof.
  intros Hs Hx Hy. destruct Hs as [|a l Hl Hall]; [discriminate|].
  injection Hx as <-. apply elem_of_cons in Hy as [->|Hy]; [lia|].
  rewrite Forall_forall in Hall. specialize (Hall y Hy). lia.
Qed.

(** The matrix starts with the same month in both directions. *)
Lemma cohort_matrix_first_label (recs : list PurchaseRecord) :
  head (index (cohort_retention recs)) = head (columns (cohort_retention recs)).
Proof.
  assert (Hi : StronglySorted Z.lt (index (cohort_retention recs)))
    by apply sorted_keys_strictly_sorted.
  assert (Hc : StronglySorted Z.lt (columns (cohort_retention recs)))
    by apply sorted_keys_strictly_sorted.
  destruct (index (cohort_retention recs)) as [|c0 idx] eqn:Ei,
           (columns (cohort_retention recs)) as [|p0 cols] eqn:Ec.
  - reflexivity.
  - exfalso.
    assert (Hp : p0 ∈ columns (cohort_retention recs)) by (rewrite Ec; left).
    apply elem_of_unstack_columns in Hp as (c & Hs).
    assert (Hin : c ∈ index (cohort_retention recs))
      by (apply elem_of_unstack_index; eauto).
    rewrite Ei in Hin. inversion Hin.
  - exfalso.
    assert (Hin : c0 ∈ index (cohort_retention recs)) by (rewrite Ei; left).
    apply cohort_index_columns in Hin. rewrite Ec in Hin. inversion Hin.
  - cbn. f_equal.
    assert (Hc0 : c0 ∈ index (cohort_retention recs)) by (rewrite Ei; left).
    assert (Hp0 : p0 ∈ columns (cohort_retention recs)) by (rewrite Ec; left).
    pose proof (cohort_index_columns _ _ Hc0) as Hc0'.
    rewrite Ec in Hc0'.
    pose proof (StronglySorted_head_le _ p0 c0 Hc eq_refl Hc0') as H1.
    apply elem_of_unstack_columns in Hp0 as (c & Hs).
    assert (Hin : c ∈ index (cohort_retention recs))
      by (apply elem_of_unstack_index; eauto).
    rewrite Ei in Hin.
    pose proof (StronglySorted_head_le _ c0 c Hi eq_refl Hin) as H2.
    pose proof (cohort_period_counts_Some recs c p0 Hs) as H3. lia.
Qed.

(** X8: the row labels and the column labels of the cohort matrix are
    strictly ascending, every cohort month is also a period column, and
    the matrix starts with the same month in both directions. *)
Theorem cohort_matrix_labels (recs : list PurchaseRecord) :
  StronglySorted Z.lt (index (cohort_retention recs))
  /\ StronglySorted Z.lt (columns (cohort_retention recs))
  /\ (forall c, c ∈ index (cohort_retention recs) ->
                c ∈ columns (cohort_retention recs))
  /\ head (index (cohort_retention recs)) = head (columns (cohort_retention recs)).
Proof.
  split; [apply sorted_keys_strictly_sorted|].
  split; [apply sorted_keys_strictly_sorted|].
  split; [intros c; apply cohort_index_columns|].
  apply cohort_matrix_first_label.
Qed.

(** ** Month-1 retention of the latest cohort *)

Lemma latest_retention_row recs c :
  last (index (cohort_retention recs)) = Some c ->
  exists k, cohorts recs !! c = Some k /\ (0 < k)%nat
    /\ latest_retention recs
       = Some ((fun p => Some (pct_of (default 0%nat
                                         (cohort_period_counts recs !! (c, p))) k))
               <$> columns (cohort_retention recs)).
Proof.
  intros Hlast.
  assert (Hc : c ∈ index (cohort_retention recs)).
  { rewrite last_lookup in Hlast. eapply list_elem_of_lookup_2, Hlast. }
  destruct (loc_cohort_retention_pct recs c c Hc (cohort_index_columns _ _ Hc))
    as (k & Hk & Hpos & _).
  exists k. split; [exact Hk|]. split; [exact Hpos|].
  unfold latest_retention, cohort_retention_pct. cbn [index columns cells].
  rewrite Hlast. cbn [mbind option_bind].
  destruct (label_pos_elem_of _ _ Hc) as (i & -> & Hi).
  cbn [mbind option_bind].
  unfold cohort_retention, unstack in *. cbn [index columns cells] in *.
  rewrite list_lookup_fmap, lookup_zip_with, Hi. cbn.
  rewrite list_lookup_fmap, Hi. cbn. rewrite Hk.
  now rewrite <- list_fmap_compose.
Qed.

Lemma StronglySorted_head_lt_last (l : list Z) x y :
  StronglySorted Z.lt l -> (2 <= length l)%nat ->
  head l = Some x -> last l = Some y -> x < y.
Proof.
  intros Hs Hlen Hx Hy. destruct Hs as [|a l Hl Hall]; [discriminate|].
  injection Hx as <-. destruct l as [|b l]; [cbn in Hlen; lia|].
  rewrite last_cons_cons in Hy.
  rewrite Forall_forall in Hall. apply Hall.
  rewrite last_lookup in Hy. eapply list_elem_of_lookup_2, Hy.
Qed.

(** X9: the "M1 retention" metric reads the second column of the matrix in
    the row of the latest cohort.  It is 100 when the matrix has a single
    column, 100 when the latest cohort is the second period, and 0 when
    the latest cohort is later than the second period; with two cohorts
    or more no other case exists. *)
Theorem month_1_retention_cases (recs : list PurchaseRecord) (c : Z) :
  last (index (cohort_retention recs)) = Some c ->
  ((length (columns (cohort_retention recs)) <= 1)%nat ->
   month_1_retention recs = Some (Some (Q2Qc (inject_Z 100))))
  /\ forall p1, columns (cohort_retention recs) !! 1%nat = Some p1 ->
       (p1 = c -> month_1_retention recs = Some (Some (Q2Qc (inject_Z 100))))
       /\ (p1 < c -> month_1_retention recs = Some (Some (Q2Qc 0)))
       /\ ((2 <= length (index (cohort_retention recs)))%nat -> p1 <= c).
Proof.
  intros Hlast.
  assert (Hc : c ∈ index (cohort_retention recs)).
  { rewrite last_lookup in Hlast. eapply list_elem_of_lookup_2, Hlast. }
  destruct (latest_retention_row recs c Hlast) as (k & Hk & Hpos & Hrow).
  unfold month_1_retention. rewrite Hrow. cbn [mbind option_bind].
  rewrite length_fmap. split.
  - intros Hlen. destruct (Nat.ltb_spec 1 (length (columns (cohort_retention recs))));
      [lia | reflexivity].
  - intros p1 Hp1.
    assert (Hlen : (1 < length (columns (cohort_retention recs)))%nat)
      by (eapply lookup_lt_Some, Hp1).
    destruct (Nat.ltb_spec 1 (length (columns (cohort_retention recs)))); [|lia].
    rewrite list_lookup_fmap, Hp1. cbn.
    split; [|split].
    + intros ->. rewrite cohort_diagonal, Hk. cbn. now rewrite pct_of_all.
    + intros Hlt.
      destruct (cohort_period_counts recs !! (c, p1)) as [n|] eqn:E.
      * assert (c <= p1) by (apply (cohort_period_counts_Some recs); eauto). lia.
      * cbn. now rewrite pct_of_none.
    + intros Hidx.
      pose proof (sorted_keys_strictly_sorted
                    (((map_to_list (cohort_period_counts recs)).*1).*1)) as Hi.
      pose proof (sorted_keys_strictly_sorted
                    (snd <$> (map_to_list (cohort_period_counts recs)).*1)) as Hcs.
      change (StronglySorted Z.lt (index (cohort_retention recs))) in Hi.
      change (StronglySorted Z.lt (columns (cohort_retention recs))) in Hcs.
      pose proof (cohort_index_columns recs) as Hsub.
      pose proof (cohort_matrix_first_label recs) as Hhead.
      destruct (columns (cohort_retention recs)) as [|p0 [|p1' cols]] eqn:Ec;
        [discriminate..|].
      cbn in Hp1. injection Hp1 as ->.
      assert (Hlt : p0 < c).
      { apply (StronglySorted_head_lt_last (index (cohort_retention recs)));
          auto. }
      pose proof (Hsub c Hc) as Hin.
      apply elem_of_cons in Hin as [->|Hin]; [lia|].
      apply StronglySorted_inv in Hcs as [Hcs _].
      apply (StronglySorted_head_le _ p1 c Hcs eq_refl Hin).
Qed.

(** ** Key figures and the customer table *)

Lemma total_revenue_sum recs : total_revenue recs = sum_revenue recs.
Proof.
  unfold total_revenue.
  assert (H : forall acc, foldl (fun a r => a + net_revenue r)%Qc acc recs
                          = (acc + sum_revenue recs)%Qc).
  { induction recs as [|r recs IH]; intros acc; cbn.
    - unfold sum_revenue. cbn. ring.
    - rewrite IH. unfold sum_revenue. cbn. ring. }
  rewrite H. ring.
Qed.

(** Summing an amount per customer over a duplicate-free list of customers
    that covers the records sums every record once. *)
Lemma sum_revenue_by_customer (ks : list Z) (recs : list PurchaseRecord) :
  NoDup ks -> (forall r, r ∈ recs -> customer_id r ∈ ks) ->
  sum_Qc ((fun k => sum_revenue (records_of k recs)) <$> ks) = sum_revenue recs.
Proof.
  intros Hnd. induction recs as [|r recs IH]; intros Hcov.
  - clear. induction ks as [|k ks IHk]; [reflexivity|].
    change (sum_revenue (records_of k [])
            + sum_Qc ((fun k => sum_revenue (records_of k [])) <$> ks)
            = sum_revenue [])%Qc.
    rewrite IHk. unfold sum_revenue. cbn. ring.
  - specialize (IH ltac:(intros z Hz; apply Hcov; now right)).
    assert (Hr : customer_id r ∈ ks) by (apply Hcov; left).
    change (sum_revenue (r :: recs)) with (net_revenue r + sum_revenue recs)%Qc.
    rewrite <- IH. clear IH Hcov.
    induction ks as [|k ks IHk]; [inversion Hr|].
    apply NoDup_cons in Hnd as [Hk Hnd].
    cbn [fmap list_fmap sum_Qc foldr]. unfold records_of at 1 3.
    rewrite filter_cons.
    destruct (decide (customer_id r = k)) as [E|NE].
    + assert (Heq : (fun k => sum_revenue (records_of k (r :: recs))) <$> ks
                    = (fun k => sum_revenue (records_of k recs)) <$> ks).
      { apply list_fmap_ext. intros n k' Hk'. apply list_elem_of_lookup_2 in Hk'.
        unfold records_of. rewrite filter_cons_False; [reflexivity|]. congruence. }
      rewrite Heq.
      change (sum_revenue (r :: ?l)) with (net_revenue r + sum_revenue l)%Qc.
      unfold sum_Qc. ring.
    + apply elem_of_cons in Hr as [Hr|Hr]; [congruence|].
      fold (sum_Qc ((fun k => sum_revenue (records_of k (r :: recs))) <$> ks)).
      rewrite (IHk Hnd Hr). unfold sum_Qc. ring.
Qed.



(** ** Conversion rate *)

(** X11: [conversion_rate] is 0 on the empty input; on any other input it
    is the share of distinct customers among the records, above 0 and at
    most 1. *)
Theorem conversion_rate_range (recs : list PurchaseRecord) :
  (recs = [] -> conversion_rate recs = Q2Qc 0)
  /\ (recs <> [] ->
      (1 <= unique_buyers recs <= length recs)%nat
      /\ (Q2Qc 0 < conversion_rate recs)%Qc
      /\ (conversion_rate recs <= Q2Qc 1)%Qc).
Proof.
  split; [intros ->; reflexivity|]. intros Hne.
  assert (Hub : (1 <= unique_buyers recs <= length recs)%nat).
  { unfold unique_buyers. split.
    - destruct recs as [|r recs]; [congruence|].
      assert (Hin : customer_id r ∈ (list_to_set (customer_id <$> r :: recs) : gset Z))
        by (apply elem_of_list_to_set; left).
      destruct (decide (size (list_to_set (customer_id <$> r :: recs) : gset Z) = 0%nat))
        as [E|NE]; [|lia].
      apply size_empty_inv in E. apply leibniz_equiv in E. rewrite E in Hin.
      now apply not_elem_of_empty in Hin.
    - rewrite <- (length_fmap customer_id).
      generalize (customer_id <$> recs). intros l.
      induction l as [|x l IH];
        [change (size (∅ : gset Z) <= 0)%nat; rewrite size_empty; lia|].
      cbn [list_to_set length].
      pose proof (size_union_alt ({[x]} : gset Z) (list_to_set l)) as Hu.
      rewrite size_singleton in Hu.
      assert (size (list_to_set l ∖ {[x]} : gset Z) <= size (list_to_set l : gset Z))%nat
        by (apply subseteq_size; intros y Hy;
            now apply elem_of_difference in Hy as [Hy _]).
      lia. }
  split; [exact Hub|].
  unfold conversion_rate.
  destruct (Nat.ltb_spec 0 (length recs)) as [Hlen|Hlen]; [|lia].
  unfold Qclt, Qcle, Qcdiv, Qcmult, Qcinv. cbn [this Q2Qc].
  repeat setoid_rewrite Qred_correct.
  set (a := inject_Z (Z.of_nat (unique_buyers recs))).
  set (b := inject_Z (Z.of_nat (length recs))).
  assert (Ha : (0 < a)%Q) by (subst a; change 0%Q with (inject_Z 0);
                              rewrite <- Zlt_Qlt; lia).
  assert (Hb : (0 < b)%Q) by (subst b; change 0%Q with (inject_Z 0);
                              rewrite <- Zlt_Qlt; lia).
  assert (Hab : (a <= b)%Q) by (subst a b; rewrite <- Zle_Qle; lia).
  split.
  - apply Qlt_shift_div_l; [exact Hb | lra].
  - apply Qle_shift_div_r; [exact Hb | lra].
Qed.

(** ** Cohorts partition the customers *)

Lemma elem_of_cohort_members recs c x :
  x ∈ cohort_members recs c
  <-> exists w, w ∈ cohort_data recs /\ cohort w = c /\ c_customer_id w = x.
Proof.
  unfold cohort_members.
  pose proof (nunique_sets_lookup cohort (cohort_data recs) c) as H.
  destruct (foldl (nunique_step cohort) ∅ (cohort_data recs) !! c) as [s|]; cbn.
  - apply H.
  - split; [intros Hx; now apply not_elem_of_empty in Hx|].
    intros (w & Hw & Hc & _). now destruct (H w Hw).
Qed.

Lemma elem_of_retained_members recs c p x :
  x ∈ retained_members recs c p
  <-> exists w, w ∈ cohort_data recs
        /\ cohort w = c /\ period w = p /\ c_customer_id w = x.
Proof.
  unfold retained_members.
  pose proof (nunique_sets_lookup (fun w => (cohort w, period w))
                (cohort_data recs) (c, p)) as H.
  destruct (foldl _ ∅ (cohort_data recs) !! (c, p)) as [s|]; cbn.
  - destruct H as [_ H]. rewrite H. split.
    + intros (w & Hw & [= Hc Hp] & Hx). eauto 6.
    + intros (w & Hw & Hc & Hp & Hx). exists w. split; [exact Hw|].
      split; [|exact Hx]. f_equal; assumption.
  - split; [intros Hx; now apply not_elem_of_empty in Hx|].
    intros (w & Hw & Hc & Hp & _). destruct (H w Hw). f_equal; assumption.
Qed.

Lemma monthly_fold_cohort_data recs :
  foldl monthly_step ∅ recs
  = foldl (nunique_step period) ∅ (cohort_data recs).
Proof. unfold cohort_data. now rewrite foldl_fmap. Qed.

Lemma elem_of_month_members recs p x :
  x ∈ month_members recs p
  <-> exists w, w ∈ cohort_data recs /\ period w = p /\ c_customer_id w = x.
Proof.
  unfold month_members. rewrite monthly_fold_cohort_data.
  pose proof (nunique_sets_lookup period (cohort_data recs) p) as H.
  destruct (foldl (nunique_step period) ∅ (cohort_data recs) !! p) as [s|]; cbn.
  - apply H.
  - split; [intros Hx; now apply not_elem_of_empty in Hx|].
    intros (w & Hw & Hc & _). now destruct (H w Hw).
Qed.

(** A customer belongs to one cohort. *)
Lemma cohort_of_customer recs w1 w2 :
  w1 ∈ cohort_data recs -> w2 ∈ cohort_data recs ->
  c_customer_id w1 = c_customer_id w2 -> cohort w1 = cohort w2.
Proof.
  unfold cohort_data. intros H1 H2 E.
  apply list_elem_of_fmap in H1 as (r1 & -> & Hr1).
  apply list_elem_of_fmap in H2 as (r2 & -> & Hr2).
  cbn in E. unfold mk_cohort_row. cbn. rewrite E.
  destruct (first_purchase_of_record recs r2 Hr2) as (d & -> & _).
  reflexivity.
Qed.

Lemma sum_sizes_disjoint {K} (F : K -> gset Z) (ks : list K) :
  NoDup ks ->
  (forall k1 k2, k1 ∈ ks -> k2 ∈ ks -> k1 <> k2 -> F k1 ## F k2) ->
  sum_list ((fun k => size (F k)) <$> ks) = size (⋃ (F <$> ks)).
Proof.
  induction 1 as [|k ks Hk Hnd IH]; intros Hdis.
  - cbn. now rewrite size_empty.
  - cbn [fmap list_fmap sum_list sum_list_with union_list foldr].
    change (foldr union ∅ (F <$> ks)) with (⋃ (F <$> ks)).
    rewrite size_union.
    + unfold id. f_equal. apply IH.
      intros k1 k2 H1 H2. apply Hdis; now right.
    + intros x Hx Hu. apply elem_of_union_list in Hu as (X & HX & HxX).
      apply list_elem_of_fmap in HX as (k' & -> & Hk').
      apply (Hdis k k' ltac:(left) ltac:(now right)
               ltac:(intros ->; contradiction) x Hx HxX).
Qed.

Lemma cohorts_lookup_members recs c n :
  cohorts recs !! c = Some n -> n = size (cohort_members recs c).
Proof.
  rewrite cohorts_lookup. unfold cohort_members.
  destruct (foldl (nunique_step cohort) ∅ (cohort_data recs) !! c) as [s|];
    cbn; congruence.
Qed.

Lemma customers_of_cohort_data recs x :
  (exists w, w ∈ cohort_data recs /\ c_customer_id w = x)
  <-> x ∈ customer_id <$> recs.
Proof.
  unfold cohort_data. split.
  - intros (w & Hw & <-). apply list_elem_of_fmap in Hw as (r & -> & Hr).
    change (customer_id r ∈ customer_id <$> recs).
    now apply list_elem_of_fmap_2.
  - intros Hx. apply list_elem_of_fmap in Hx as (r & -> & Hr).
    exists (mk_cohort_row (first_purchase recs) r).
    split; [now apply list_elem_of_fmap_2 | reflexivity].
Qed.

(** X12: every customer belongs to exactly one cohort: the cohort sizes
    add up to [unique_buyers]. *)
Theorem cohort_sizes_sum_to_unique_buyers (recs : list PurchaseRecord) :
  sum_list (snd <$> sorted_items (cohorts recs)) = unique_buyers recs.
Proof.
  set (L := sorted_items (cohorts recs)).
  assert (Hsnd : snd <$> L = (fun k => size (cohort_members recs k)) <$> L.*1).
  { rewrite <- list_fmap_compose. apply list_fmap_ext.
    intros i [k n] Hkn. apply list_elem_of_lookup_2 in Hkn.
    apply elem_of_sorted_items in Hkn. cbn.
    now apply cohorts_lookup_members. }
  rewrite Hsnd, sum_sizes_disjoint.
  - unfold unique_buyers. f_equal. apply set_eq. intros x.
    rewrite elem_of_union_list, elem_of_list_to_set, <- customers_of_cohort_data.
    split.
    + intros (X & HX & Hx). apply list_elem_of_fmap in HX as (k & -> & _).
      apply elem_of_cohort_members in Hx as (w & Hw & _ & Hc). eauto.
    + intros (w & Hw & Hc). exists (cohort_members recs (cohort w)). split.
      * apply list_elem_of_fmap_2.
        assert (His : is_Some (cohorts recs !! cohort w)).
        { rewrite cohorts_lookup.
          pose proof (nunique_sets_lookup cohort (cohort_data recs) (cohort w)) as H.
          destruct (foldl _ ∅ (cohort_data recs) !! cohort w) as [s|]; [cbn; eauto|].
          now destruct (H w Hw). }
        destruct His as [n Hn].
        apply list_elem_of_fmap. exists (cohort w, n). split; [reflexivity|].
        now apply elem_of_sorted_items.
      * apply elem_of_cohort_members. eauto.
  - apply NoDup_sorted_items_keys.
  - intros k1 k2 _ _ Hne x H1 H2.
    apply elem_of_cohort_members in H1 as (w1 & Hw1 & Hc1 & Hx1).
    apply elem_of_cohort_members in H2 as (w2 & Hw2 & Hc2 & Hx2).
    apply Hne. rewrite <- Hc1, <- Hc2.
    apply (cohort_of_customer recs); congruence.
Qed.

Lemma monthly_users_lookup recs p :
  monthly_users recs !! p
  = size <$> (foldl (nunique_step period) ∅ (cohort_data recs) !! p).
Proof.
  unfold monthly_users. rewrite monthly_fold_cohort_data. apply lookup_fmap.
Qed.

Lemma elem_of_columns_month recs p :
  p ∈ columns (cohort_retention recs) <-> is_Some (monthly_users recs !! p).
Proof.
  unfold cohort_retention. rewrite elem_of_unstack_columns, monthly_users_lookup.
  pose proof (nunique_sets_lookup period (cohort_data recs) p) as H1. split.
  - intros (c & n & Hn). rewrite cohort_period_counts_lookup in Hn.
    pose proof (nunique_sets_lookup (fun w => (cohort w, period w))
                  (cohort_data recs) (c, p)) as H2.
    destruct (foldl _ ∅ (cohort_data recs) !! (c, p)) as [s2|]; [|discriminate].
    destruct H2 as [(w & Hw & [= Hc Hp]) _].
    destruct (foldl (nunique_step period) ∅ (cohort_data recs) !! p) as [s|];
      [cbn; eauto|].
    now destruct (H1 w Hw).
  - intros [n Hn].
    destruct (foldl (nunique_step period) ∅ (cohort_data recs) !! p) as [s|];
      [|discriminate].
    destruct H1 as [(w & Hw & Hp) _]. exists (cohort w).
    rewrite cohort_period_counts_lookup.
    pose proof (nunique_sets_lookup (fun w => (cohort w, period w))
                  (cohort_data recs) (cohort w, p)) as H2.
    destruct (foldl _ ∅ (cohort_data recs) !! (cohort w, p)) as [s2|];
      [cbn; eauto|].
    destruct (H2 w Hw). f_equal. exact Hp.
Qed.

(** The count of a month is the size of its set of customers, which is
    not empty. *)
Lemma monthly_users_members recs p n :
  monthly_users recs !! p = Some n ->
  n = size (month_members recs p) /\ (0 < n)%nat.
Proof.
  intros Hn. rewrite monthly_users_lookup in Hn.
  pose proof (nunique_sets_lookup period (cohort_data recs) p) as H1.
  assert (En : n = size (month_members recs p)).
  { unfold month_members. rewrite monthly_fold_cohort_data.
    destruct (foldl (nunique_step period) ∅ (cohort_data recs) !! p) as [s|];
      cbn in *; congruence. }
  split; [exact En|]. rewrite En.
  destruct (decide (size (month_members recs p) = 0%nat)) as [E|NE]; [|lia].
  exfalso. apply size_empty_inv in E. apply leibniz_equiv in E.
  destruct (foldl (nunique_step period) ∅ (cohort_data recs) !! p) as [s|] eqn:Es;
    [|discriminate].
  destruct H1 as [(w & Hw & Hpw) _].
  assert (Hin : c_customer_id w ∈ month_members recs p)
    by (apply elem_of_month_members; eauto).
  rewrite E in Hin. now apply not_elem_of_empty in Hin.
Qed.

(** X13: the customers active in a month are split among the cohorts: the
    counts of a column of the cohort matrix add up to the number of
    distinct customers of that month ([monthly_users]). *)
Theorem cohort_column_sums_to_monthly_users (recs : list PurchaseRecord) (p : Z) :
  p ∈ columns (cohort_retention recs) ->
  exists n, monthly_users recs !! p = Some n /\ (0 < n)%nat
    /\ sum_list ((fun c => default 0%nat (retained_count recs c p))
                 <$> index (cohort_retention recs)) = n.
Proof.
  intros Hp.
  destruct (proj1 (elem_of_columns_month recs p) Hp) as [n Hn].
  exists n. split; [exact Hn|].
  destruct (monthly_users_members recs p n Hn) as (En & Hpos).
  assert (Hcells : (fun c => default 0%nat (retained_count recs c p))
                     <$> index (cohort_retention recs)
                   = (fun c => size (retained_members recs c p))
                       <$> index (cohort_retention recs)).
  { apply list_fmap_ext. intros i c Hc. apply list_elem_of_lookup_2 in Hc.
    unfold retained_count, cohort_retention in *.
    rewrite loc_unstack by assumption. cbn.
    rewrite cohort_period_counts_lookup. unfold retained_members.
    now destruct (foldl _ ∅ (cohort_data recs) !! (c, p)). }
  assert (Hunion : ⋃ ((fun c => retained_members recs c p)
                        <$> index (cohort_retention recs))
                   = month_members recs p).
  { apply set_eq. intros x.
    rewrite elem_of_union_list, elem_of_month_members. split.
    - intros (X & HX & Hx). apply list_elem_of_fmap in HX as (c & -> & _).
      apply elem_of_retained_members in Hx as (w & Hw & _ & Hpw & Hx). eauto.
    - intros (w & Hw & Hpw & Hx).
      exists (retained_members recs (cohort w) p). split.
      + apply (list_elem_of_fmap_2 (fun c => retained_members recs c p)).
        unfold cohort_retention.
        apply elem_of_unstack_index. exists p.
        rewrite cohort_period_counts_lookup.
        pose proof (nunique_sets_lookup (fun w => (cohort w, period w))
                      (cohort_data recs) (cohort w, p)) as H2.
        destruct (foldl _ ∅ (cohort_data recs) !! (cohort w, p)) as [s2|];
          [cbn; eauto|].
        destruct (H2 w Hw). f_equal. exact Hpw.
      + apply elem_of_retained_members. exists w. auto. }
  rewrite Hcells, sum_sizes_disjoint, Hunion.
  - split; [exact Hpos | now rewrite En].
  - apply NoDup_sorted_keys.
  - intros c1 c2 _ _ Hne x H1 H2.
    apply elem_of_retained_members in H1 as (w1 & Hw1 & Hc1 & _ & Hx1).
    apply elem_of_retained_members in H2 as (w2 & Hw2 & Hc2 & _ & Hx2).
    apply Hne. rewrite <- Hc1, <- Hc2.
    apply (cohort_of_customer recs); congruence.
Qed.

(** ** Monthly active users *)

(** X14: [mau_count], the number of months with a purchase, is the number
    of columns of the cohort matrix. *)
Theorem mau_count_is_number_of_columns (recs : list PurchaseRecord) :
  mau_count recs = length (columns (cohort_retention recs)).
Proof.
  unfold mau_count. rewrite <- length_map_to_list.
  rewrite <- (length_fmap fst).
  apply Permutation_length, NoDup_Permutation.
  - apply NoDup_fst_map_to_list.
  - apply NoDup_sorted_keys.
  - intros p. rewrite elem_of_columns_month. split.
    + intros Hp. apply list_elem_of_fmap in Hp as ([k n] & -> & Hkn).
      apply elem_of_map_to_list in Hkn. cbn. eauto.
    + intros [n Hn]. apply list_elem_of_fmap. exists (p, n).
      split; [reflexivity | now apply elem_of_map_to_list].
Qed.

Lemma monthly_users_value recs p n :
  monthly_users recs !! p = Some n -> (1 <= n <= unique_buyers recs)%nat.
Proof.
  intros Hn.
  assert (Hp : p ∈ columns (cohort_retention recs))
    by (apply elem_of_columns_month; eauto).
  destruct (monthly_users_members recs p n Hn) as (-> & Hpos).
  split; [exact Hpos|].
  unfold unique_buyers. apply subseteq_size. intros x Hx.
  apply elem_of_month_members in Hx as (w & Hw & _ & Hx).
  apply elem_of_list_to_set, customers_of_cohort_data. eauto.
Qed.

Lemma sum_list_bounds (l : list nat) (lo hi : nat) :
  (forall n, n ∈ l -> lo <= n <= hi)%nat ->
  (length l * lo <= sum_list l <= length l * hi)%nat.
Proof.
  induction l as [|x l IH]; intros Hall; [cbn; lia|].
  specialize (IH ltac:(intros n Hn; apply Hall; now right)).
  specialize (Hall x ltac:(left)).
  cbn [sum_list sum_list_with length]. unfold id.
  change (sum_list_with (fun x => x) l) with (sum_list l). lia.
Qed.

(** X15: on the empty input the average of the monthly active users is
    [NaN] and the ARPU is 0; on any other input the average lies between 1
    and [unique_buyers], so the ARPU is [total_revenue] divided by it. *)
Theorem avg_mau_and_arpu (recs : list PurchaseRecord) :
  (recs = [] -> avg_mau recs = None /\ arpu_val recs = Q2Qc 0)
  /\ (recs <> [] ->
      exists a, avg_mau recs = Some a
        /\ (Q2Qc 1 <= a)%Qc
        /\ (a <= Q2Qc (inject_Z (Z.of_nat (unique_buyers recs))))%Qc
        /\ arpu_val recs = (total_revenue recs / a)%Qc).
Proof.
  split; [intros ->; split; reflexivity|]. intros Hne.
  unfold arpu_val, avg_mau.
  set (L := snd <$> sorted_items (monthly_users recs)).
  assert (Hvals : forall n, n ∈ L -> (1 <= n <= unique_buyers recs)%nat).
  { intros n Hn. subst L. apply list_elem_of_fmap in Hn as ([k n'] & -> & Hkn).
    apply elem_of_sorted_items in Hkn. cbn.
    now apply (monthly_users_value recs k). }
  assert (HL : L <> []).
  { destruct recs as [|r recs]; [congruence|].
    assert (Hp : year_month r ∈ columns (cohort_retention (r :: recs))).
    { apply elem_of_columns_month. rewrite monthly_users_lookup.
      pose proof (nunique_sets_lookup period (cohort_data (r :: recs))
                    (year_month r)) as H.
      destruct (foldl _ ∅ (cohort_data (r :: recs)) !! year_month r) as [s|];
        [cbn; eauto|].
      exfalso.
      apply (H (mk_cohort_row (first_purchase (r :: recs)) r));
        [left | reflexivity]. }
    apply elem_of_columns_month in Hp as [n Hn].
    assert (Hin : n ∈ L).
    { subst L. apply list_elem_of_fmap. exists (year_month r, n).
      split; [reflexivity | now apply elem_of_sorted_items]. }
    intros E. rewrite E in Hin. inversion Hin. }
  pose proof (sum_list_bounds L 1 (unique_buyers recs) Hvals) as Hsum.
  destruct L as [|x L'] eqn:EL; [congruence|]. rewrite <- EL in *.
  assert (Hlen : (0 < length L)%nat) by (rewrite EL; cbn; lia).
  unfold mean_count. rewrite EL. rewrite <- EL.
  set (a := (Q2Qc (inject_Z (Z.of_nat (sum_list L)))
             / Q2Qc (inject_Z (Z.of_nat (length L))))%Qc).
  assert (Hbounds : (Q2Qc 1 <= a)%Qc
                    /\ (a <= Q2Qc (inject_Z (Z.of_nat (unique_buyers recs))))%Qc).
  { subst a. unfold Qcle, Qcdiv, Qcmult, Qcinv. cbn [this Q2Qc].
    repeat setoid_rewrite Qred_correct.
    set (s := inject_Z (Z.of_nat (sum_list L))).
    set (l := inject_Z (Z.of_nat (length L))).
    set (u := inject_Z (Z.of_nat (unique_buyers recs))).
    assert (Hl : (0 < l)%Q) by (subst l; change 0%Q with (inject_Z 0);
                                rewrite <- Zlt_Qlt; lia).
    assert (H1 : (l <= s)%Q) by (subst l s; rewrite <- Zle_Qle; lia).
    assert (H2 : (s <= u * l)%Q).
    { subst l s u. rewrite <- inject_Z_mult, <- Zle_Qle. lia. }
    split.
    - apply Qle_shift_div_l; [exact Hl | lra].
    - apply Qle_shift_div_r; [exact Hl | exact H2]. }
  exists a. split; [reflexivity|]. split; [tauto|]. split; [tauto|].
  destruct (Qclt_le_dec (Q2Qc 0) a) as [Hpos|Hnp]; [reflexivity|].
  exfalso. destruct Hbounds as [H1 _].
  assert (Hcontra : (Q2Qc 1 <= Q2Qc 0)%Qc) by (eapply Qcle_trans; eauto).
  apply Qcle_not_lt in Hcontra. apply Hcontra. reflexivity.
Qed.

(** ** Revenue growth *)

Lemma Qc_nonneg_plus (x y : Qc) :
  (Q2Qc 0 <= x)%Qc -> (Q2Qc 0 <= y)%Qc -> (Q2Qc 0 <= x + y)%Qc.
Proof.
  intros Hx Hy. replace (Q2Qc 0) with (Q2Qc 0 + Q2Qc 0)%Qc by ring.
  now apply Qcplus_le_compat.
Qed.

Lemma groupby_revenue_nonneg key recs :
  (forall r, r ∈ recs -> (Q2Qc 0 <= net_revenue r)%Qc) ->
  forall k v, groupby_revenue key recs !! k = Some v -> (Q2Qc 0 <= v)%Qc.
Proof.
  unfold groupby_revenue.
  induction recs as [|r recs IH] using rev_ind; intros Hall k v.
  - cbn. now rewrite lookup_empty.
  - rewrite foldl_snoc. unfold revenue_step at 1.
    specialize (IH ltac:(intros z Hz; apply Hall, elem_of_app; now left)).
    destruct (decide (key r = k)) as [<-|NE].
    + rewrite lookup_insert_eq. intros [= <-].
      apply Qc_nonneg_plus.
      * destruct (foldl (revenue_step key) ∅ recs !! key r) as [v0|] eqn:E;
          cbn; [eauto | apply Qcle_refl].
      * apply Hall, elem_of_app. right. left.
    + rewrite lookup_insert_ne by exact NE. apply IH.
Qed.


(** ** Revenue by customer *)

Lemma sum_Qc_perm (l1 l2 : list Qc) : l1 ≡ₚ l2 -> sum_Qc l1 = sum_Qc l2.
Proof.
  induction 1 as [|x l1 l2 _ IH|x y l|l1 l2 l3 _ IH1 _ IH2];
    unfold sum_Qc in *; cbn [foldr].
  - reflexivity.
  - now rewrite IH.
  - ring.
  - now rewrite IH1.
Qed.

(** What the revenue group-by holds for customer [k]. *)
Lemma groupby_revenue_customer_lookup recs k :
  groupby_revenue customer_id recs !! k
  = match records_of k recs with
    | [] => None
    | _ :: _ => Some (sum_revenue (records_of k recs))
    end.
Proof.
  unfold groupby_revenue.
  induction recs as [|r recs IH] using rev_ind.
  - cbn. now rewrite lookup_empty.
  - rewrite foldl_snoc, records_of_snoc. unfold revenue_step at 1.
    destruct (decide (customer_id r = k)) as [<-|NE].
    + rewrite lookup_insert_eq, IH.
      destruct (records_of (customer_id r) recs) as [|r0 l].
      * cbn. f_equal. unfold sum_revenue. cbn. ring.
      * change (Some (sum_revenue (r0 :: l) + net_revenue r)%Qc
                = Some (sum_revenue ((r0 :: l) ++ [r]))).
        now rewrite sum_revenue_snoc.
    + rewrite lookup_insert_ne by exact NE. now rewrite app_nil_r.
Qed.

Lemma groupby_revenue_customers recs k :
  is_Some (groupby_revenue customer_id recs !! k) <-> k ∈ customer_id <$> recs.
Proof.
  rewrite groupby_revenue_customer_lookup. split.
  - intros His.
    assert (Hne : records_of k recs <> [])
      by (destruct (records_of k recs); [now destruct His | discriminate]).
    apply records_of_nonempty in Hne as (r & Hr & <-).
    now apply list_elem_of_fmap_2.
  - intros Hk. apply list_elem_of_fmap in Hk as (r & -> & Hr).
    assert (Hne : records_of (customer_id r) recs <> [])
      by (apply records_of_nonempty; eauto).
    destruct (records_of (customer_id r) recs); [congruence | eauto].
Qed.

Lemma cust_revenue_perm recs :
  cust_revenue recs ≡ₚ snd <$> map_to_list (groupby_revenue customer_id recs).
Proof. apply merge_sort_Permutation. Qed.

Lemma cust_revenue_total recs : sum_Qc (cust_revenue recs) = total_revenue recs.
Proof.
  rewrite (sum_Qc_perm _ _ (cust_revenue_perm recs)), total_revenue_sum.
  set (L := map_to_list (groupby_revenue customer_id recs)).
  assert (Hsnd : snd <$> L = (fun k => sum_revenue (records_of k recs)) <$> L.*1).
  { rewrite <- list_fmap_compose. apply list_fmap_ext.
    intros i [k v] Hkv. apply list_elem_of_lookup_2 in Hkv.
    apply elem_of_map_to_list in Hkv. cbn.
    rewrite groupby_revenue_customer_lookup in Hkv.
    destruct (records_of k recs); congruence. }
  rewrite Hsnd. apply sum_revenue_by_customer.
  - apply NoDup_fst_map_to_list.
  - intros r Hr.
    assert (His : is_Some (groupby_revenue customer_id recs !! customer_id r))
      by (apply groupby_revenue_customers; now apply list_elem_of_fmap_2).
    destruct His as [v Hv]. apply list_elem_of_fmap. exists (customer_id r, v).
    split; [reflexivity | now apply elem_of_map_to_list].
Qed.

Lemma cust_revenue_length recs : length (cust_revenue recs) = unique_buyers recs.
Proof.
  rewrite (Permutation_length (cust_revenue_perm recs)), length_fmap.
  rewrite <- (length_fmap fst). unfold unique_buyers.
  rewrite <- (size_list_to_set (C := gset Z))
    by apply NoDup_fst_map_to_list.
  f_equal. apply set_eq. intros k. rewrite !elem_of_list_to_set.
  rewrite <- groupby_revenue_customers. split.
  - intros Hk. apply list_elem_of_fmap in Hk as ([k' v] & -> & Hkv).
    apply elem_of_map_to_list in Hkv. cbn. eauto.
  - intros [v Hv]. apply list_elem_of_fmap. exists (k, v).
    split; [reflexivity | now apply elem_of_map_to_list].
Qed.

Lemma cust_revenue_nonneg recs :
  (forall r, r ∈ recs -> (Q2Qc 0 <= net_revenue r)%Qc) ->
  forall v, v ∈ cust_revenue recs -> (Q2Qc 0 <= v)%Qc.
Proof.
  intros Hall v Hv. rewrite cust_revenue_perm in Hv.
  apply list_elem_of_fmap in Hv as ([k v'] & -> & Hkv).
  apply elem_of_map_to_list in Hkv.
  now apply (groupby_revenue_nonneg customer_id recs Hall k).
Qed.

(** The sorted values are in descending order. *)
Lemma cust_revenue_sorted recs : Sorted (flip Qcle) (cust_revenue recs).
Proof.
  apply Sorted_merge_sort. intros x y. unfold flip.
  destruct (Qclt_le_dec x y) as [H|H]; [right | left; exact H].
  now apply Qclt_le_weak.
Qed.

(** ** Shares of the total *)

Lemma Qc_pos_nonzero (t : Qc) : (Q2Qc 0 < t)%Qc -> t <> Q2Qc 0.
Proof. intros Ht ->. now apply Qclt_not_eq in Ht. Qed.

Lemma share_bounds (x t : Qc) :
  (Q2Qc 0 <= x)%Qc -> (x <= t)%Qc -> (Q2Qc 0 < t)%Qc ->
  (Q2Qc 0 <= x / t * Q2Qc (inject_Z 100))%Qc
  /\ (x / t * Q2Qc (inject_Z 100) <= Q2Qc (inject_Z 100))%Qc.
Proof.
  unfold Qclt, Qcle, Qcdiv, Qcmult, Qcinv. cbn [this Q2Qc].
  repeat setoid_rewrite Qred_correct.
  set (a := this x). set (b := this t). intros Ha Hab Hb.
  assert (H1 : (a * / b <= 1)%Q) by (apply Qle_shift_div_r; [exact Hb | lra]).
  assert (H0 : (0 <= a * / b)%Q) by (apply Qle_shift_div_l; [exact Hb | lra]).
  change (inject_Z 100) with 100%Q. split; lra.
Qed.

Lemma share_mono (x y t : Qc) :
  (x <= y)%Qc -> (Q2Qc 0 < t)%Qc ->
  (x / t * Q2Qc (inject_Z 100) <= y / t * Q2Qc (inject_Z 100))%Qc.
Proof.
  unfold Qclt, Qcle, Qcdiv, Qcmult, Qcinv. cbn [this Q2Qc].
  repeat setoid_rewrite Qred_correct.
  set (a := this x). set (b := this y). set (c := this t). intros Hab Hc.
  assert (Hi : (0 < / c)%Q) by now apply Qinv_lt_0_compat.
  assert (H : (a * / c <= b * / c)%Q)
    by (apply Qmult_le_compat_r; [exact Hab | lra]).
  change (inject_Z 100) with 100%Q. lra.
Qed.

Lemma share_all (t : Qc) :
  t <> Q2Qc 0 -> (t / t * Q2Qc (inject_Z 100))%Qc = Q2Qc (inject_Z 100).
Proof. intros Ht. field. exact Ht. Qed.

Lemma sum_Qc_nonneg (l : list Qc) :
  (forall v, v ∈ l -> (Q2Qc 0 <= v)%Qc) -> (Q2Qc 0 <= sum_Qc l)%Qc.
Proof.
  induction l as [|x l IH]; intros Hall; [apply Qcle_refl|].
  change (Q2Qc 0 <= x + sum_Qc l)%Qc.
  apply Qc_nonneg_plus; [apply Hall; left|].
  apply IH. intros v Hv. apply Hall. now right.
Qed.




(** ** The Pareto curve of the customers *)

Lemma cumsum_from_length acc l : length (cumsum_from acc l) = length l.
Proof. revert acc. induction l as [|x l IH]; intros acc; cbn; [|rewrite IH]; reflexivity. Qed.

Lemma cumsum_from_last acc l :
  l <> [] -> last (cumsum_from acc l) = Some (acc + sum_Qc l)%Qc.
Proof.
  revert acc. induction l as [|x l IH]; intros acc Hne; [congruence|].
  destruct l as [|y l].
  - cbn. f_equal. ring.
  - change (cumsum_from acc (x :: y :: l))
      with ((acc + x)%Qc :: cumsum_from (acc + x)%Qc (y :: l)).
    change (cumsum_from (acc + x)%Qc (y :: l))
      with ((acc + x + y)%Qc :: cumsum_from (acc + x + y)%Qc l).
    rewrite last_cons_cons.
    change ((acc + x + y)%Qc :: cumsum_from (acc + x + y)%Qc l)
      with (cumsum_from (acc + x)%Qc (y :: l)).
    rewrite IH by discriminate. f_equal.
    change (sum_Qc (x :: y :: l)) with (x + sum_Qc (y :: l))%Qc. ring.
Qed.

Lemma Qc_le_plus_nonneg (a x : Qc) : (Q2Qc 0 <= x)%Qc -> (a <= a + x)%Qc.
Proof.
  intros Hx. replace a with (a + Q2Qc 0)%Qc at 1 by ring.
  apply Qcplus_le_compat; [apply Qcle_refl | exact Hx].
Qed.

Lemma cumsum_from_bounds acc l v :
  (forall x, x ∈ l -> (Q2Qc 0 <= x)%Qc) ->
  v ∈ cumsum_from acc l -> (acc <= v)%Qc /\ (v <= acc + sum_Qc l)%Qc.
Proof.
  revert acc. induction l as [|x l IH]; intros acc Hall Hv; [inversion Hv|].
  assert (Hx : (Q2Qc 0 <= x)%Qc) by (apply Hall; left).
  assert (Hl : forall y, y ∈ l -> (Q2Qc 0 <= y)%Qc)
    by (intros y Hy; apply Hall; now right).
  change (sum_Qc (x :: l)) with (x + sum_Qc l)%Qc.
  cbn in Hv. apply elem_of_cons in Hv as [->|Hv].
  - split; [now apply Qc_le_plus_nonneg|].
    replace (acc + (x + sum_Qc l))%Qc with (acc + x + sum_Qc l)%Qc by ring.
    apply Qc_le_plus_nonneg. now apply sum_Qc_nonneg.
  - destruct (IH (acc + x)%Qc Hl Hv) as [H1 H2]. split.
    + eapply Qcle_trans; [|exact H1]. now apply Qc_le_plus_nonneg.
    + replace (acc + (x + sum_Qc l))%Qc with (acc + x + sum_Qc l)%Qc by ring.
      exact H2.
Qed.

Lemma cumsum_from_sorted acc l :
  (forall x, x ∈ l -> (Q2Qc 0 <= x)%Qc) -> Sorted Qcle (cumsum_from acc l).
Proof.
  revert acc. induction l as [|x l IH]; intros acc Hall; [constructor|].
  assert (Hl : forall y, y ∈ l -> (Q2Qc 0 <= y)%Qc)
    by (intros y Hy; apply Hall; now right).
  cbn. constructor; [now apply IH|].
  destruct l as [|y l]; [constructor|].
  cbn. constructor. apply Qc_le_plus_nonneg. apply Hl. left.
Qed.

(** X18: the cumulative revenue share of the customers, when no record has
    a negative [net_revenue] and the total revenue is positive: one number
    per customer, never decreasing, between 0 and 100, and ending at 100. *)
Theorem pareto_curve_of_customers (recs : list PurchaseRecord) :
  (forall r, r ∈ recs -> (Q2Qc 0 <= net_revenue r)%Qc) ->
  (Q2Qc 0 < total_revenue recs)%Qc ->
  exists pcts,
    cust_cumsum_pct recs = Some (Some <$> pcts)
    /\ length pcts = unique_buyers recs
    /\ Sorted Qcle pcts
    /\ (forall v, v ∈ pcts ->
          (Q2Qc 0 <= v)%Qc /\ (v <= Q2Qc (inject_Z 100))%Qc)
    /\ last pcts = Some (Q2Qc (inject_Z 100)).
Proof.
  intros Hall Htot.
  pose proof (Qc_pos_nonzero _ Htot) as Hnz.
  pose proof (cust_revenue_nonneg recs Hall) as Hnn.
  assert (Hne : cust_revenue recs <> []).
  { intros E. pose proof (cust_revenue_total recs) as H. rewrite E in H.
    cbn in H. congruence. }
  unfold cust_cumsum_pct, cumsum. cbv zeta.
  rewrite (cumsum_from_last _ _ Hne), cust_revenue_total.
  replace (Q2Qc 0 + total_revenue recs)%Qc with (total_revenue recs) by ring.
  cbn [mbind option_bind].
  set (cs := cumsum_from (Q2Qc 0) (cust_revenue recs)).
  set (t := total_revenue recs) in *.
  exists ((fun x => x / t * Q2Qc (inject_Z 100))%Qc <$> cs).
  split; [|split; [|split; [|split]]].
  - f_equal. rewrite <- list_fmap_compose. apply list_fmap_ext.
    intros i x _. unfold share_pct. cbn.
    destruct (decide (t = Q2Qc 0)); [contradiction | reflexivity].
  - subst cs. rewrite length_fmap, cumsum_from_length. apply cust_revenue_length.
  - apply Sorted_fmap with (R1 := Qcle).
    + intros x y Hxy. now apply share_mono.
    + now apply cumsum_from_sorted.
  - intros v Hv. apply list_elem_of_fmap in Hv as (x & -> & Hx).
    subst cs. apply cumsum_from_bounds in Hx as [H0 H1]; [|exact Hnn].
    rewrite cust_revenue_total in H1.
    replace (Q2Qc 0 + total_revenue recs)%Qc with t in H1 by (subst t; ring).
    now apply share_bounds.
  - rewrite fmap_last. subst cs.
    rewrite (cumsum_from_last _ _ Hne), cust_revenue_total. cbn.
    replace (Q2Qc 0 + total_revenue recs)%Qc with t by (subst t; ring).
    f_equal. now apply share_all.
Qed.

(** ** Instances on the sample inputs *)


Lemma month_1_retention_cases_witness :
  last (index (cohort_retention Samples.three_customers)) = Some Samples.feb_2024
  /\ ((length (columns (cohort_retention Samples.three_customers)) <= 1)%nat ->
      month_1_retention Samples.three_customers
      = Some (Some (Q2Qc (inject_Z 100))))
  /\ forall p1, columns (cohort_retention Samples.three_customers) !! 1%nat = Some p1 ->
       (p1 = Samples.feb_2024 ->
        month_1_retention Samples.three_customers
        = Some (Some (Q2Qc (inject_Z 100))))
       /\ (p1 < Samples.feb_2024 ->
           month_1_retention Samples.three_customers = Some (Some (Q2Qc 0)))
       /\ ((2 <= length (index (cohort_retention Samples.three_customers)))%nat ->
           p1 <= Samples.feb_2024).
Proof.
  assert (H : last (index (cohort_retention Samples.three_customers))
              = Some Samples.feb_2024) by (vm_compute; reflexivity).
  split; [exact H|].
  exact (month_1_retention_cases Samples.three_customers Samples.feb_2024 H).
Defined.

Lemma cohort_column_sums_to_monthly_users_witness :
  Samples.feb_2024 ∈ columns (cohort_retention Samples.three_customers)
  /\ exists n, monthly_users Samples.three_customers !! Samples.feb_2024 = Some n
       /\ (0 < n)%nat
       /\ sum_list ((fun c => default 0%nat
                                (retained_count Samples.three_customers c
                                   Samples.feb_2024))
                    <$> index (cohort_retention Samples.three_customers)) = n.
Proof.
  assert (H : Samples.feb_2024 ∈ columns (cohort_retention Samples.three_customers))
    by (vm_compute; right; left).
  split; [exact H|].
  exact (cohort_column_sums_to_monthly_users Samples.three_customers _ H).
Defined.

Lemma tied_frequency_nonneg :
  forall r, r ∈ Samples.tied_frequency -> (Q2Qc 0 <= net_revenue r)%Qc.
Proof.
  apply Forall_forall. unfold Samples.tied_frequency.
  repeat constructor; vm_compute; discriminate.
Defined.

Lemma tied_frequency_total_pos :
  (Q2Qc 0 < total_revenue Samples.tied_frequency)%Qc.
Proof. vm_compute. reflexivity. Defined.



Lemma pareto_curve_of_customers_witness :
  (forall r, r ∈ Samples.tied_frequency -> (Q2Qc 0 <= net_revenue r)%Qc)
  /\ (Q2Qc 0 < total_revenue Samples.tied_frequency)%Qc
  /\ exists pcts,
       cust_cumsum_pct Samples.tied_frequency = Some (Some <$> pcts)
       /\ length pcts = unique_buyers Samples.tied_frequency
       /\ Sorted Qcle pcts
       /\ (forall v, v ∈ pcts ->
             (Q2Qc 0 <= v)%Qc /\ (v <= Q2Qc (inject_Z 100))%Qc)
       /\ last pcts = Some (Q2Qc (inject_Z 100)).
Proof.
  split; [exact tied_frequency_nonneg|].
  split; [exact tied_frequency_total_pos|].
  exact (pareto_curve_of_customers Samples.tied_frequency
           tied_frequency_nonneg tied_frequency_total_pos).
Defined.
